(** * Video poster image generator: the batch pipeline of [src/app/page.tsx]

  A shallow embedding of the [HomePage] component's two handlers,
  [handleProcess] (fetch every video, extract one frame of each with
  the ffmpeg engine, collect the images) and [handleDownloadAll] (pack
  the collected images into a zip), with the properties its
  specification states about them. *)

From stdpp Require Import gmap strings list fin_maps pretty.
From Stdlib Require Import ZArith Strings.Ascii Strings.Byte.

Local Open Scope Z_scope.

(** ** JavaScript strings

  Strings are sequences of code units; the only units the code
  inspects are ['/'] and ['.']. *)

Module JSString.

(** [occurs c s]: the code unit [c] appears somewhere in [s]. *)
Fixpoint occurs (c : ascii) (s : string) : bool :=
  match s with
  | EmptyString => false
  | String a s' => Ascii.eqb a c || occurs c s'
  end.

(** [s.lastIndexOf(c)] for a one-unit needle, scanning a string whose
    first unit has index [i]: the index of the last occurrence, [-1]
    when there is none. *)
Fixpoint lastIndexOf_from (c : ascii) (s : string) (i : Z) : Z :=
  match s with
  | EmptyString => -1
  | String a s' =>
      let later := lastIndexOf_from c s' (i + 1) in
      if 0 <=? later then later
      else if Ascii.eqb a c then i else -1
  end.

Definition lastIndexOf (s : string) (c : ascii) : Z :=
  lastIndexOf_from c s 0.

Fixpoint drop_units (n : nat) (s : string) : string :=
  match n, s with
  | O, _ => s
  | S _, EmptyString => EmptyString
  | S n', String _ s' => drop_units n' s'
  end.

(** [s.substring(start)]: a negative start counts as 0, a start past
    the end yields the empty string. *)
Definition substring (s : string) (start : Z) : string :=
  drop_units (Z.to_nat (Z.max 0 start)) s.

End JSString.

(** ** The regular expression [/\.[^/.]+$/] *)

Module ExtRegex.

(** The character class [[^/.]]. *)
Definition in_class (c : ascii) : bool :=
  negb (Ascii.eqb c "/") && negb (Ascii.eqb c ".").

(** [[^/.]*$]: every remaining unit is in the class. *)
Fixpoint class_to_end (s : string) : bool :=
  match s with
  | EmptyString => true
  | String c s' => in_class c && class_to_end s'
  end.

(** The pattern matches starting at the first unit of [s]: a dot, at
    least one unit of the class, and then the end of the input. The
    greedy [+] followed by [$] succeeds exactly when everything after
    the dot is in the class. *)
Definition matches_here (s : string) : bool :=
  match s with
  | String "." (String c s') => in_class c && class_to_end s'
  | _ => false
  end.

(** [s.replace(/\.[^/.]+$/, "")]: the leftmost match, which always
    runs to the end of the input, is replaced by the empty string; a
    string without a match is returned as it is. *)
Fixpoint replace_with_empty (s : string) : string :=
  match s with
  | EmptyString => EmptyString
  | String c s' =>
      if matches_here s then EmptyString
      else String c (replace_with_empty s')
  end.

End ExtRegex.

(** ** Filename derivation (page.tsx, lines 97-102) *)

(** [video.url.substring(video.url.lastIndexOf("/") + 1)] *)
Definition videoFileName (url : string) : string :=
  JSString.substring url (JSString.lastIndexOf url "/" + 1).

(** [videoFileName.replace(/\.[^/.]+$/, "") + ".webp"] *)
Definition imageFileName (url : string) : string :=
  ExtRegex.replace_with_empty (videoFileName url) +:+ ".webp".

Local Close Scope Z_scope.

(** *** The derivation in the specification's words *)

Module FilenameSpec.

(** "the substring after the final [/], or the entire URL if no [/] is
    present" *)
Definition last_segment (url seg : string) : Prop :=
  (JSString.occurs "/" url = false ∧ seg = url) ∨
  (∃ pre, url = pre +:+ String "/" seg ∧ JSString.occurs "/" seg = false).

(** [base] ends in a ['.']-delimited extension segment [ext] after
    [stem]: the segment is not empty and holds no further dot. *)
Definition has_extension (base stem ext : string) : Prop :=
  base = stem +:+ String "." ext ∧ ext ≠ EmptyString ∧
  JSString.occurs "." ext = false.

(** "strip a trailing ['.']-delimited extension segment if one
    exists" *)
Definition stripped (base stem : string) : Prop :=
  (∃ ext, has_extension base stem ext) ∨
  ((∀ stem' ext, ¬ has_extension base stem' ext) ∧ stem = base).

(** "... and append [.webp]" *)
Definition derived (url name : string) : Prop :=
  ∃ seg stem, last_segment url seg ∧ stripped seg stem ∧
              name = stem +:+ ".webp".

End FilenameSpec.

(** ** Data model (page.tsx, lines 9-17) *)

Abbreviation bytes := (list byte).

(** [interface IVideoInput { url: string; frame: number }]; frame
    numbers are modelled as integers. *)
Record IVideoInput := { url : string; frame : Z }.

(** [interface IImageData { url: string; filename: string }]; the [url]
    field is named [image_url] here, the name [url] being taken. *)
Record IImageData := { image_url : string; filename : string }.

(** What a rejected promise or a thrown exception carries. *)
Inductive error :=
| FetchFailed (u : string)
| LoadFailed
| RunRejected
| ENOENT (name : string).

(** What one [ffmpeg.run] makes of a video: an output file, no output
    file (the command ends without writing one), or a rejection. *)
Inductive run_outcome :=
| Produced (img : bytes)
| NoOutput
| Rejected.

(** Effects visible outside the component, in the order they happen. *)
Inductive event :=
| EvLoad (ok : bool)
| EvFetch (u : string)
| EvRun (args : list string)
| EvConsoleError (e : error)
| EvAlert (msg : string)
| EvDownload (name : string) (entries : list (string * bytes)).

(** The environment of the page: everything the handlers ask of the
    network, of the ffmpeg engine and of the browser. *)
Record World := {
  http_get : string → option bytes;
  decode : bytes → string → run_outcome;
  load_ok : nat → bool;
  uuid : nat → string;
  object_url : nat → string
}.

(** The component's React state ([videos], [images], [isProcessing]),
    the [newImages] array of the running [handleProcess], the engine
    built by [useMemo] ([ffmpeg_created] is false where [window] is
    undefined and [ffmpeg] is null), the browser's store of object URLs
    and the trace of effects. *)
Record State := {
  videos : list IVideoInput;
  images : list IImageData;
  isProcessing : bool;
  newImages : list IImageData;
  ffmpeg_created : bool;
  loaded : bool;
  load_calls : nat;
  FS : gmap string bytes;
  uuid_calls : nat;
  blobs : gmap string bytes;
  blob_calls : nat;
  trace : list event
}.

Definition set_videos (x : list IVideoInput) (st : State) : State :=
  {| videos := x; images := images st; isProcessing := isProcessing st;
     newImages := newImages st; ffmpeg_created := ffmpeg_created st;
     loaded := loaded st; load_calls := load_calls st; FS := FS st;
     uuid_calls := uuid_calls st; blobs := blobs st;
     blob_calls := blob_calls st; trace := trace st |}.

Definition set_images (x : list IImageData) (st : State) : State :=
  {| videos := videos st; images := x; isProcessing := isProcessing st;
     newImages := newImages st; ffmpeg_created := ffmpeg_created st;
     loaded := loaded st; load_calls := load_calls st; FS := FS st;
     uuid_calls := uuid_calls st; blobs := blobs st;
     blob_calls := blob_calls st; trace := trace st |}.

Definition set_isProcessing (x : bool) (st : State) : State :=
  {| videos := videos st; images := images st; isProcessing := x;
     newImages := newImages st; ffmpeg_created := ffmpeg_created st;
     loaded := loaded st; load_calls := load_calls st; FS := FS st;
     uuid_calls := uuid_calls st; blobs := blobs st;
     blob_calls := blob_calls st; trace := trace st |}.

Definition set_newImages (x : list IImageData) (st : State) : State :=
  {| videos := videos st; images := images st; isProcessing := isProcessing st;
     newImages := x; ffmpeg_created := ffmpeg_created st;
     loaded := loaded st; load_calls := load_calls st; FS := FS st;
     uuid_calls := uuid_calls st; blobs := blobs st;
     blob_calls := blob_calls st; trace := trace st |}.

Definition set_loaded (x : bool) (st : State) : State :=
  {| videos := videos st; images := images st; isProcessing := isProcessing st;
     newImages := newImages st; ffmpeg_created := ffmpeg_created st;
     loaded := x; load_calls := load_calls st; FS := FS st;
     uuid_calls := uuid_calls st; blobs := blobs st;
     blob_calls := blob_calls st; trace := trace st |}.

Definition set_load_calls (x : nat) (st : State) : State :=
  {| videos := videos st; images := images st; isProcessing := isProcessing st;
     newImages := newImages st; ffmpeg_created := ffmpeg_created st;
     loaded := loaded st; load_calls := x; FS := FS st;
     uuid_calls := uuid_calls st; blobs := blobs st;
     blob_calls := blob_calls st; trace := trace st |}.

Definition set_FS (x : gmap string bytes) (st : State) : State :=
  {| videos := videos st; images := images st; isProcessing := isProcessing st;
     newImages := newImages st; ffmpeg_created := ffmpeg_created st;
     loaded := loaded st; load_calls := load_calls st; FS := x;
     uuid_calls := uuid_calls st; blobs := blobs st;
     blob_calls := blob_calls st; trace := trace st |}.

Definition set_uuid_calls (x : nat) (st : State) : State :=
  {| videos := videos st; images := images st; isProcessing := isProcessing st;
     newImages := newImages st; ffmpeg_created := ffmpeg_created st;
     loaded := loaded st; load_calls := load_calls st; FS := FS st;
     uuid_calls := x; blobs := blobs st;
     blob_calls := blob_calls st; trace := trace st |}.

Definition set_blobs (x : gmap string bytes) (n : nat) (st : State) : State :=
  {| videos := videos st; images := images st; isProcessing := isProcessing st;
     newImages := newImages st; ffmpeg_created := ffmpeg_created st;
     loaded := loaded st; load_calls := load_calls st; FS := FS st;
     uuid_calls := uuid_calls st; blobs := x;
     blob_calls := n; trace := trace st |}.

Definition set_trace (x : list event) (st : State) : State :=
  {| videos := videos st; images := images st; isProcessing := isProcessing st;
     newImages := newImages st; ffmpeg_created := ffmpeg_created st;
     loaded := loaded st; load_calls := load_calls st; FS := FS st;
     uuid_calls := uuid_calls st; blobs := blobs st;
     blob_calls := blob_calls st; trace := x |}.

(** ** Asynchronous code as a state-and-exception monad

    A handler runs from one state to the next and either returns or
    throws; what it changed before throwing stays changed. *)

Inductive completion (A : Type) :=
| Returned (a : A)
| Thrown (e : error).
Arguments Returned {A} a.
Arguments Thrown {A} e.

Definition JS (A : Type) : Type := State → completion A * State.

Global Instance JS_ret : MRet JS := λ A a st, (Returned a, st).

Global Instance JS_bind : MBind JS := λ A B k m st,
  match m st with
  | (Returned a, st') => k a st'
  | (Thrown e, st') => (Thrown e, st')
  end.

Definition throw {A} (e : error) : JS A := λ st, (Thrown e, st).

(** [try { body } catch (error) { handler }] *)
Definition try_catch {A} (body : JS A) (handler : error → JS A) : JS A :=
  λ st, match body st with
        | (Returned a, st') => (Returned a, st')
        | (Thrown e, st') => handler e st'
        end.

Definition gets {A} (f : State → A) : JS A := λ st, (Returned (f st), st).

Definition modify (f : State → State) : JS unit := λ st, (Returned tt, f st).

Definition log (e : event) : JS unit :=
  modify (λ st, set_trace (trace st ++ [e]) st).

(** [for (const x of xs) { body }] *)
Fixpoint for_of {A} (xs : list A) (body : A → JS unit) : JS unit :=
  match xs with
  | [] => mret tt
  | x :: xs' => body x;; for_of xs' body
  end.

(** ** The browser, the engine and the archive library *)

Section Platform.
Context (w : World).

(** [await fetch(url)] followed by reading the whole body
    ([arrayBuffer()], or [blob()] and then [arrayBuffer()]): an object
    URL of the page yields its blob, any other URL what the network
    answers; the promise rejects when there is no answer. *)
Definition fetch (u : string) : JS bytes :=
  log (EvFetch u);;
  store ← gets blobs;
  match store !! u with
  | Some b => mret b
  | None =>
      match http_get w u with
      | Some b => mret b
      | None => throw (FetchFailed u)
      end
  end.

(** [uuidv4()] *)
Definition uuidv4 : JS string :=
  n ← gets uuid_calls;
  modify (set_uuid_calls (S n));;
  mret (uuid w n).

(** [URL.createObjectURL(new Blob([data.buffer], ...))] *)
Definition createObjectURL (data : bytes) : JS string :=
  n ← gets blob_calls;
  store ← gets blobs;
  modify (set_blobs (<[object_url w n := data]> store) (S n));;
  mret (object_url w n).

(** [ffmpeg.isLoaded()] *)
Definition ffmpeg_isLoaded : JS bool := gets loaded.

(** [await ffmpeg.load()] *)
Definition ffmpeg_load : JS unit :=
  n ← gets load_calls;
  modify (set_load_calls (S n));;
  log (EvLoad (load_ok w n));;
  if load_ok w n then modify (set_loaded true) else throw LoadFailed.

(** [ffmpeg.FS("writeFile", name, data)] *)
Definition FS_writeFile (name : string) (data : bytes) : JS unit :=
  modify (λ st, set_FS (<[name := data]> (FS st)) st).

(** [ffmpeg.FS("readFile", name)] *)
Definition FS_readFile (name : string) : JS bytes :=
  fs ← gets FS;
  match fs !! name with
  | Some data => mret data
  | None => throw (ENOENT name)
  end.

(** [ffmpeg.FS("unlink", name)] *)
Definition FS_unlink (name : string) : JS unit :=
  fs ← gets FS;
  match fs !! name with
  | Some _ => modify (set_FS (delete name fs))
  | None => throw (ENOENT name)
  end.

(** The one command line the page issues:
    [-i <input> -vf <filter> -vframes 1 <output>]. *)
Definition parse_args (args : list string) : option (string * string * string) :=
  match args with
  | [a; input; b; filter; c; d; output] =>
      if bool_decide (a = "-i" ∧ b = "-vf" ∧ c = "-vframes" ∧ d = "1")
      then Some (input, filter, output)
      else None
  | _ => None
  end.

(** [await ffmpeg.run(...args)]: the engine reads the input file and
    writes the output file when it produces one. *)
Definition ffmpeg_run (args : list string) : JS unit :=
  log (EvRun args);;
  match parse_args args with
  | Some (input, filter, output) =>
      fs ← gets FS;
      match fs !! input with
      | Some video =>
          match decode w video filter with
          | Produced img => FS_writeFile output img
          | NoOutput => mret tt
          | Rejected => throw RunRejected
          end
      | None => mret tt
      end
  | None => mret tt
  end.

End Platform.

(** [new JSZip()]: the entries of the archive, in the order their names
    were first added. *)
Abbreviation JSZip := (list (string * bytes)).

(** [zip.file(name, data)]: adds the entry, or replaces the content of
    the entry that already has this name. *)
Fixpoint zip_file (name : string) (data : bytes) (zip : JSZip) : JSZip :=
  match zip with
  | [] => [(name, data)]
  | (n, d) :: rest =>
      if decide (n = name) then (name, data) :: rest
      else (n, d) :: zip_file name data rest
  end.

(** ** The handlers (page.tsx, lines 56-147) *)

Section Handlers.
Context (w : World).

(** The [-vf] argument: [`select=eq(n\\,${video.frame})`] *)
Definition select_filter (n : Z) : string :=
  "select=eq(n\," +:+ pretty n +:+ ")".

Definition alert_message (video : IVideoInput) : string :=
  "There was an error processing the video: " +:+ url video.

(** The body of the [for] loop, lines 68-112. *)
Definition processVideo (video : IVideoInput) : JS unit :=
  try_catch
    (videoData ← fetch w (url video);
     id1 ← uuidv4 w;
     let inputFileName := id1 +:+ ".mp4" in
     FS_writeFile inputFileName videoData;;
     id2 ← uuidv4 w;
     let outputFileName := id2 +:+ ".webp" in
     ffmpeg_run w ["-i"; inputFileName; "-vf"; select_filter (frame video);
                   "-vframes"; "1"; outputFileName];;
     data ← FS_readFile outputFileName;
     imageUrl ← createObjectURL w data;
     modify (λ st, set_newImages
        (newImages st ++ [{| image_url := imageUrl;
                             filename := imageFileName (url video) |}]) st);;
     FS_unlink inputFileName;;
     FS_unlink outputFileName)
    (λ error,
     log (EvConsoleError error);;
     log (EvAlert (alert_message video))).

(** [handleProcess], lines 56-117. *)
Definition handleProcess : JS unit :=
  created ← gets ffmpeg_created;
  if negb created then mret tt
  else
    modify (set_isProcessing true);;
    modify (set_newImages []);;
    isLoaded ← ffmpeg_isLoaded;
    (if negb isLoaded then ffmpeg_load w else mret tt);;
    vs ← gets videos;
    for_of vs processVideo;;
    result ← gets newImages;
    modify (set_images result);;
    modify (set_isProcessing false).

(** The loop of [handleDownloadAll], lines 123-135. *)
Fixpoint zip_images (imgs : list IImageData) (zip : JSZip) : JS JSZip :=
  match imgs with
  | [] => mret zip
  | imageObj :: rest =>
      arrayBuffer ← fetch w (image_url imageObj);
      zip_images rest (zip_file (filename imageObj) arrayBuffer zip)
  end.

(** Lines 121-138: the archive that is handed to the download. *)
Definition packageArchive : JS JSZip :=
  imgs ← gets images;
  zip_images imgs [].

(** [handleDownloadAll], lines 120-147. *)
Definition handleDownloadAll : JS unit :=
  zip ← packageArchive;
  log (EvDownload "images.zip" zip).

(** What the user does with the page: edit the inputs ([setVideos]),
    press Process (disabled while [isProcessing]), press Download
    (shown when there are images). *)
Inductive action :=
| SetVideos (update : list IVideoInput → list IVideoInput)
| Process
| DownloadAll.

Definition perform (st : State) (a : action) : State :=
  match a with
  | SetVideos update => set_videos (update (videos st)) st
  | Process => if isProcessing st then st else (handleProcess st).2
  | DownloadAll =>
      match images st with
      | [] => st
      | _ :: _ => (handleDownloadAll st).2
      end
  end.

Definition lifetime (acts : list action) (st : State) : State :=
  foldl perform st acts.

End Handlers.

(** The page as first rendered in a browser. *)
Definition initial_state : State :=
  {| videos := [{| url := ""; frame := 0 |}]; images := [];
     isProcessing := false; newImages := []; ffmpeg_created := true;
     loaded := false; load_calls := 0; FS := ∅; uuid_calls := 0;
     blobs := ∅; blob_calls := 0; trace := [] |}.

(** ** Vocabulary of the statements *)

(** The alerts, the fetched URLs and the outcomes of [ffmpeg.load()]
    recorded in a trace, each in order of occurrence. *)
Definition alerts (tr : list event) : list string :=
  omap (λ e, match e with EvAlert msg => Some msg | _ => None end) tr.

Definition fetches (tr : list event) : list string :=
  omap (λ e, match e with EvFetch u => Some u | _ => None end) tr.

Definition load_events (tr : list event) : list bool :=
  omap (λ e, match e with EvLoad ok => Some ok | _ => None end) tr.

(** The effects of one pass through the loop body on [video], with the
    image it contributed: a failed fetch, a failed extraction, or a
    completed item. *)
Inductive item_trace (video : IVideoInput) :
    option IImageData → list event → Prop :=
| item_fetch_failed e :
    item_trace video None
      [EvFetch (url video); EvConsoleError e; EvAlert (alert_message video)]
| item_extract_failed args e :
    item_trace video None
      [EvFetch (url video); EvRun args; EvConsoleError e;
       EvAlert (alert_message video)]
| item_done args im :
    filename im = imageFileName (url video) →
    item_trace video (Some im) [EvFetch (url video); EvRun args].

(** The last unit of a string, to tell [.mp4] names from [.webp] names. *)
Fixpoint last_unit (s : string) : option ascii :=
  match s with
  | EmptyString => None
  | String c EmptyString => Some c
  | String _ s' => last_unit s'
  end.

Section Vocabulary.
Context (w : World).

(** What [fetch] resolves to in a state, if anything. *)
Definition fetched (st : State) (u : string) : option bytes :=
  match blobs st !! u with
  | Some b => Some b
  | None => http_get w u
  end.

(** The scratch names and the command line of the item started in
    state [st]. *)
Definition inputFileName (st : State) : string :=
  uuid w (uuid_calls st) +:+ ".mp4".

Definition outputFileName (st : State) : string :=
  uuid w (S (uuid_calls st)) +:+ ".webp".

Definition ffmpeg_args (st : State) (video : IVideoInput) : list string :=
  ["-i"; inputFileName st; "-vf"; select_filter (frame video);
   "-vframes"; "1"; outputFileName st].

(** The input can be fetched and the engine produces its frame. *)
Definition extractable (st : State) (video : IVideoInput) : Prop :=
  ∃ data img, fetched st (url video) = Some data ∧
              decode w data (select_filter (frame video)) = Produced img.

(** No object URL that the browser hands out from state [st] on is
    equal to [u]. *)
Definition not_reminted (st : State) (u : string) : Prop :=
  ∀ n, blob_calls st ≤ n → object_url w n ≠ u.

(** An independently valid input: it is extractable, and the browser
    does not hand out its URL again as a new object URL. *)
Definition valid_input (st : State) (video : IVideoInput) : Prop :=
  not_reminted st (url video) ∧ extractable st video.

(** The engine exists and is loaded, or its next [load()] succeeds. *)
Definition engine_ready (st : State) : Prop :=
  ffmpeg_created st = true ∧
  (loaded st = true ∨ load_ok w (load_calls st) = true).

(** [effect st st' imgs evs]: from [st] to [st'] the images [imgs] were
    appended to [newImages] and the events [evs] to the trace; the React
    state and the engine's load status are as before, and so is what
    the object URL store holds under every name that is not handed out
    anew. *)
Definition effect (st st' : State)
    (imgs : list IImageData) (evs : list event) : Prop :=
  trace st' = trace st ++ evs ∧
  newImages st' = newImages st ++ imgs ∧
  videos st' = videos st ∧ images st' = images st ∧
  isProcessing st' = isProcessing st ∧
  ffmpeg_created st' = ffmpeg_created st ∧
  loaded st' = loaded st ∧ load_calls st' = load_calls st ∧
  blob_calls st ≤ blob_calls st' ∧
  ∀ u, not_reminted st u → blobs st' !! u = blobs st !! u.

(** The state in which a completed item leaves the page. *)
Definition after_extracted (st : State) (video : IVideoInput)
    (data img : bytes) : State :=
  set_FS (delete (outputFileName st)
            (delete (inputFileName st)
               (<[outputFileName st := img]>
                  (<[inputFileName st := data]> (FS st)))))
    (set_newImages
       (newImages st ++ [{| image_url := object_url w (blob_calls st);
                            filename := imageFileName (url video) |}])
       (set_blobs (<[object_url w (blob_calls st) := img]> (blobs st))
          (S (blob_calls st))
          (set_uuid_calls (S (S (uuid_calls st)))
             (set_trace (trace st ++ [EvFetch (url video);
                                      EvRun (ffmpeg_args st video)]) st)))).

(** The state in which an item leaves the page when its video was
    fetched and staged but no image could be read back, the exception
    being [e]. *)
Definition after_not_extracted (st : State) (video : IVideoInput)
    (data : bytes) (e : error) : State :=
  set_FS (<[inputFileName st := data]> (FS st))
    (set_uuid_calls (S (S (uuid_calls st)))
       (set_trace (trace st ++ [EvFetch (url video);
                                EvRun (ffmpeg_args st video);
                                EvConsoleError e;
                                EvAlert (alert_message video)]) st)).

End Vocabulary.

(** The state at line 67 of a batch whose engine is, or gets, loaded. *)
Definition engine_started (st : State) : State :=
  let st1 := set_newImages [] (set_isProcessing true st) in
  if loaded st then st1
  else set_loaded true
         (set_trace (trace st ++ [EvLoad true])
            (set_load_calls (S (load_calls st)) st1)).

(** The archive that adding the given entries, in order, builds. *)
Definition pack (entries : list (string * bytes)) : JSZip :=
  foldl (λ zip e, zip_file e.1 e.2 zip) [] entries.

(** The contents stored in an archive under a name. *)
Definition entries_named (name : string) (zip : JSZip) : list bytes :=
  (filter (λ e, e.1 = name) zip).*2.

(** "An archive with exactly one entry per image, entry name equal to
    that image's filename and entry content equal to that image's
    bytes", the bytes of an image being what its object URL resolves
    to. *)
Definition one_entry_per_image (w : World) (st : State) : Prop :=
  ∀ contents,
    Forall2 (λ im b, fetched w st (image_url im) = Some b)
            (images st) contents →
    (packageArchive w st).1 = Returned (zip (filename <$> images st) contents).

(** ** A small concrete page

    Two videos, each served under two URLs, one reachable URL that does
    not hold a video, and nothing else on the network. *)

Module Demo.

Definition clip : bytes := [x00; x01; x02].
Definition reel : bytes := [x00; x01; x03].
Definition junk : bytes := [x3c; x68; x3e].
Definition poster : bytes := [x52; x49; x46; x46].
Definition still : bytes := [x52; x49; x46; x47].

Definition world : World :=
  {| http_get := λ u,
       if decide (u = "https://x.com/a/clip.mp4") then Some clip
       else if decide (u = "https://y.org/b/clip.mp4") then Some reel
       else if decide (u = "https://x.com/a.mp4") then Some clip
       else if decide (u = "https://x.com/b.mp4") then Some reel
       else if decide (u = "https://x.com/bad.mp4") then Some junk
       else None;
     decode := λ video _,
       match video with
       | [x00; x01; x02] => Produced poster
       | [x00; x01; x03] => Produced still
       | _ => NoOutput
       end;
     load_ok := λ _, true;
     uuid := λ n, "id" +:+ pretty n;
     object_url := λ n, "blob:" +:+ pretty n |}.

(** The same page with an engine that never loads. *)
Definition offline : World :=
  {| http_get := http_get world; decode := decode world;
     load_ok := λ _, false; uuid := uuid world;
     object_url := object_url world |}.

Definition good : IVideoInput :=
  {| url := "https://x.com/a/clip.mp4"; frame := 0 |}.
Definition namesake : IVideoInput :=
  {| url := "https://y.org/b/clip.mp4"; frame := 3 |}.
Definition bad : IVideoInput :=
  {| url := "https://x.com/bad.mp4"; frame := 7 |}.
Definition unreachable : IVideoInput :=
  {| url := "https://nowhere.example/v.mp4"; frame := 0 |}.

Definition page (vs : list IVideoInput) : State := set_videos vs initial_state.

(** The page after a batch of two videos of the same base name: it
    holds two images named [clip.webp]. *)
Definition clash : State :=
  Eval vm_compute in (handleProcess world (page [good; namesake])).2.

(** The page after a batch that yields the two images of the
    specification's example, [a.webp] and [b.webp]. *)
Definition pair : State :=
  Eval vm_compute in
  (handleProcess world
     (page [{| url := "https://x.com/a.mp4"; frame := 0 |};
            {| url := "https://x.com/b.mp4"; frame := 0 |}])).2.

(** A page that holds an image while its engine is not loaded. *)
Definition shown : State :=
  set_images [{| image_url := "blob:0"; filename := "old.webp" |}]
    (set_blobs {["blob:0" := poster]} 1 (page [good])).

(** A page whose engine is already loaded. *)
Definition warm : State := set_loaded true (page [good]).

End Demo.

(** ** Editing the inputs (page.tsx, lines 33-53 and 183) *)

Module JSArray.

(** [xs.splice(start, deleteCount)] for a start that is an index or the
    length: the call returns the removed elements, and leaves in the
    array the elements before and after them. The pair is (returned
    value, array afterwards). *)
Definition splice {A} (start deleteCount : nat) (xs : list A) : list A * list A :=
  (take deleteCount (drop start xs),
   take start xs ++ drop (start + deleteCount) xs).

End JSArray.

(** The updater of [removeVideoInput]:
    [(videos) => [...videos].splice(index, 1)], the value that [splice]
    returns on a copy of the list. *)
Definition removeVideoInput (index : nat) (videos : list IVideoInput) :
    list IVideoInput :=
  (JSArray.splice index 1 videos).1.

(** [keyof IVideoInput] *)
Inductive field := url_field | frame_field.

Section Editing.
(** [Number(value)], with frame numbers modelled as integers. *)
Context (Number : string → Z).

(** [{ ...v, [field]: field === "frame" ? Number(value) : value }] *)
Definition with_field (f : field) (value : string) (v : IVideoInput) :
    IVideoInput :=
  match f with
  | frame_field => {| url := url v; frame := Number value |}
  | url_field => {| url := value; frame := frame v |}
  end.

(** The updater of [handleVideoChange]:
    [videos.map((v, i) => i === index ? {...} : v)]. *)
Definition handleVideoChange (index : nat) (f : field) (value : string)
    (videos : list IVideoInput) : list IVideoInput :=
  imap (λ i v, if decide (i = index) then with_field f value v else v) videos.

End Editing.

(** The Add Video button, line 183: [[...videos, { url: "", frame: 0 }]]. *)
Definition addVideo (videos : list IVideoInput) : list IVideoInput :=
  videos ++ [{| url := ""; frame := 0 |}].

(** ** The build configuration (next.config.mjs, lines 3-20) *)

Module NextConfig.

(** A value of a configuration object: a boolean, or anything else. *)
Inductive setting :=
| Flag (b : bool)
| Other (description : string).

(** The two objects of the webpack configuration that the hook
    rewrites; [None] stands for [undefined]. *)
Record config := {
  experiments : option (gmap string setting);
  resolve_fallback : option (gmap string setting)
}.

(** [{ ...o }]: spreading [undefined] gives the empty object. *)
Definition spread (o : option (gmap string setting)) : gmap string setting :=
  default ∅ o.

(** The [webpack] hook: it rewrites the configuration and returns it. *)
Definition webpack (c : config) (isServer : bool) : config :=
  let experiments' :=
    Some (<["asyncWebAssembly" := Flag true]> (spread (experiments c))) in
  if negb isServer
  then {| experiments := experiments';
          resolve_fallback :=
            Some (<["path" := Flag false]>
                    (<["fs" := Flag false]> (spread (resolve_fallback c)))) |}
  else {| experiments := experiments';
          resolve_fallback := resolve_fallback c |}.

End NextConfig.

(** ** Invariants of the page *)

Section Invariants.
Context (w : World).

(** The engine's file system holds nothing but staged inputs: every
    file is named after a scratch identifier drawn earlier, with the
    [.mp4] extension. *)
Definition staged_only (st : State) : Prop :=
  ∀ name, is_Some (FS st !! name) →
          ∃ k, k < uuid_calls st ∧ name = uuid w k +:+ ".mp4".

(** Every object URL in the store was handed out earlier. *)
Definition store_minted (st : State) : Prop :=
  ∀ u, is_Some (blobs st !! u) → ∃ k, k < blob_calls st ∧ u = object_url w k.

(** Every image of a list has its object URL in the store. *)
Definition resolvable (st : State) (imgs : list IImageData) : Prop :=
  Forall (λ im, is_Some (blobs st !! image_url im)) imgs.

(** The page is idle and has made no load call (it then shows no
    image) or a successful one, or it is held in the processing state,
    without images, by its one, failed, load call. *)
Definition load_discipline (st : State) : Prop :=
  ffmpeg_created st = true ∧
  ((isProcessing st = false ∧ loaded st = false ∧
    load_events (trace st) = [] ∧ images st = []) ∨
   (isProcessing st = false ∧ loaded st = true ∧
    load_events (trace st) = [true]) ∨
   (isProcessing st = true ∧ loaded st = false ∧
    load_events (trace st) = [false] ∧ images st = [])).

(** The events of an item whose fetch fails. *)
Definition unreachable_events (video : IVideoInput) : list event :=
  [EvFetch (url video); EvConsoleError (FetchFailed (url video));
   EvAlert (alert_message video)].

(** The input is fetched and decoded to the frame [img]. *)
Definition yields (st : State) (video : IVideoInput) (img : bytes) : Prop :=
  ∃ data, fetched w st (url video) = Some data ∧
          decode w data (select_filter (frame video)) = Produced img.

End Invariants.

(** * Properties *)

(** ** Filename derivation *)

Section StringFacts.
Import JSString ExtRegex.
Local Open Scope Z_scope.

Lemma append_cons a s t : String a s +:+ t = String a (s +:+ t).
Proof. reflexivity. Qed.

Lemma append_empty_l t : EmptyString +:+ t = t.
Proof. reflexivity. Qed.

Lemma occurs_app c a b : occurs c (a +:+ b) = occurs c a || occurs c b.
Proof.
  induction a as [|x a IH]; simpl; [done|].
  by rewrite IH, orb_assoc.
Qed.

Lemma occurs_app_here c pre seg : occurs c (pre +:+ String c seg) = true.
Proof.
  rewrite occurs_app. simpl. rewrite Ascii.eqb_refl.
  by destruct (occurs c pre).
Qed.

Lemma lastIndexOf_from_absent c s i :
  occurs c s = false → lastIndexOf_from c s i = -1.
Proof.
  revert i. induction s as [|a s IH]; intros i; simpl; [done|].
  intros [Ha Hs]%orb_false_elim.
  by rewrite (IH _ Hs), Ha.
Qed.

Lemma lastIndexOf_from_last c pre seg i :
  0 ≤ i → occurs c seg = false →
  lastIndexOf_from c (pre +:+ String c seg) i = i + Z.of_nat (String.length pre).
Proof.
  revert i. induction pre as [|a pre IH]; intros i Hi Hseg.
  - simpl. rewrite (lastIndexOf_from_absent _ _ _ Hseg), Ascii.eqb_refl.
    simpl. lia.
  - rewrite append_cons. cbn [lastIndexOf_from String.length].
    rewrite (IH (i + 1)) by (done || lia).
    destruct (Z.leb_spec 0 (i + 1 + Z.of_nat (String.length pre))); lia.
Qed.

Lemma split_at_last c s :
  occurs c s = true →
  ∃ pre seg, s = pre +:+ String c seg ∧ occurs c seg = false.
Proof.
  induction s as [|a s IH]; simpl; [done|].
  destruct (occurs c s) eqn:Hs.
  - intros _. destruct IH as (pre & seg & -> & Hseg); [done|].
    by exists (String a pre), seg.
  - rewrite orb_false_r. intros ->%Ascii.eqb_eq.
    by exists EmptyString, s.
Qed.

Lemma length_append a b :
  String.length (a +:+ b) = (String.length a + String.length b)%nat.
Proof.
  induction a as [|x a IH]; [done|].
  rewrite append_cons. simpl. by rewrite IH.
Qed.

Lemma videoFileName_no_slash u :
  occurs "/" u = false → videoFileName u = u.
Proof.
  intros H. unfold videoFileName, lastIndexOf.
  by rewrite (lastIndexOf_from_absent _ _ _ H).
Qed.

Lemma videoFileName_after_slash pre seg :
  occurs "/" seg = false → videoFileName (pre +:+ String "/" seg) = seg.
Proof.
  intros H. unfold videoFileName, lastIndexOf, substring.
  rewrite lastIndexOf_from_last by done.
  replace (Z.to_nat _) with (S (String.length pre)) by lia.
  change (S (String.length pre)) with (String.length (String "/" pre)).
  clear H. induction pre as [|x pre IH]; [done|].
  by rewrite append_cons.
Qed.

Lemma last_segment_iff u seg :
  FilenameSpec.last_segment u seg ↔ seg = videoFileName u.
Proof.
  split.
  - intros [[H ->]|(pre & -> & H)].
    + by rewrite videoFileName_no_slash.
    + by rewrite videoFileName_after_slash.
  - intros ->. destruct (occurs "/" u) eqn:H.
    + destruct (split_at_last _ _ H) as (pre & seg & -> & Hseg).
      right. exists pre. by rewrite videoFileName_after_slash.
    + left. by rewrite videoFileName_no_slash.
Qed.

Lemma videoFileName_slash_free u : occurs "/" (videoFileName u) = false.
Proof.
  destruct (occurs "/" u) eqn:H.
  - destruct (split_at_last _ _ H) as (pre & seg & -> & Hseg).
    by rewrite videoFileName_after_slash.
  - by rewrite videoFileName_no_slash.
Qed.

Lemma class_to_end_iff s :
  class_to_end s = true ↔ occurs "/" s = false ∧ occurs "." s = false.
Proof.
  induction s as [|a s IH]; simpl; [done|]. unfold in_class.
  rewrite andb_true_iff, andb_true_iff, !negb_true_iff, IH,
    !orb_false_iff.
  tauto.
Qed.

Lemma matches_here_dot t :
  matches_here (String "." t) = true ↔ t ≠ EmptyString ∧ class_to_end t = true.
Proof.
  destruct t as [|c t]; simpl; [split; [done|by intros [? _]]|].
  split; [by intros ->|by intros [_ ->]].
Qed.

Lemma matches_here_inv s :
  matches_here s = true →
  ∃ ext, s = String "." ext ∧ ext ≠ EmptyString ∧ class_to_end ext = true.
Proof.
  destruct s as [|a s]; [done|]. intros H.
  assert (a = "."%char) as ->.
  { destruct a as [[] [] [] [] [] [] [] []]; try done. }
  apply matches_here_dot in H. eauto.
Qed.

Lemma replace_strips stem ext :
  ext ≠ EmptyString → class_to_end ext = true →
  replace_with_empty (stem +:+ String "." ext) = stem.
Proof.
  intros Hne Hclass. induction stem as [|a stem IH].
  - rewrite append_empty_l. cbn [replace_with_empty].
    by rewrite (proj2 (matches_here_dot ext)).
  - rewrite append_cons. cbn [replace_with_empty]. rewrite IH.
    destruct (matches_here _) eqn:Hm; [|done].
    apply matches_here_inv in Hm as (t & [= -> <-] & _ & Ht).
    apply class_to_end_iff in Ht as [_ Ht].
    by rewrite occurs_app_here in Ht.
Qed.

Lemma replace_cases s :
  replace_with_empty s = s ∨
  ∃ stem ext, s = stem +:+ String "." ext ∧ ext ≠ EmptyString ∧
              class_to_end ext = true ∧ replace_with_empty s = stem.
Proof.
  induction s as [|a s IH]; [by left|].
  cbn [replace_with_empty]. destruct (matches_here _) eqn:Hm.
  - right. apply matches_here_inv in Hm as (ext & -> & Hne & Hc).
    by exists EmptyString, ext.
  - destruct IH as [->|(stem & ext & -> & Hne & Hc & ->)]; [by left|].
    right. by exists (String a stem), ext.
Qed.

Lemma stripped_iff base stem :
  occurs "/" base = false →
  FilenameSpec.stripped base stem ↔ stem = replace_with_empty base.
Proof.
  intros Hbase.
  assert (∀ stem' ext, FilenameSpec.has_extension base stem' ext →
            replace_with_empty base = stem') as Hstrip.
  { intros stem' ext (-> & Hne & Hdot). apply replace_strips; [done|].
    apply class_to_end_iff. split; [|done].
    rewrite occurs_app in Hbase. apply orb_false_elim in Hbase as [_ H].
    exact H. }
  split.
  - intros [[ext H]|[Hnone ->]]; [symmetry; eauto|].
    destruct (replace_cases base) as [->|(st & ext & E & Hne & Hc & _)];
      [done|].
    destruct (Hnone st ext). split; [done|]. split; [done|].
    by apply class_to_end_iff in Hc as [_ ?].
  - intros ->.
    destruct (replace_cases base) as [E|(st & ext & E & Hne & Hc & ->)].
    + right. rewrite E. split; [|done]. intros stem' ext H.
      pose proof (Hstrip _ _ H) as <-. destruct H as (H & _).
      rewrite E in H. apply (f_equal String.length) in H.
      rewrite length_append in H. simpl in H. lia.
    + left. exists ext. split; [done|]. split; [done|].
      by apply class_to_end_iff in Hc as [_ ?].
Qed.

Lemma derived_iff u name :
  FilenameSpec.derived u name ↔ name = imageFileName u.
Proof.
  unfold FilenameSpec.derived, imageFileName. split.
  - intros (seg & stem & ->%last_segment_iff & Hs & ->).
    apply stripped_iff in Hs as ->; [done|]. apply videoFileName_slash_free.
  - intros ->. exists (videoFileName u), (replace_with_empty (videoFileName u)).
    split; [by apply last_segment_iff|]. split; [|done].
    apply stripped_iff; [apply videoFileName_slash_free|done].
Qed.

End StringFacts.

(** C2, as stated, fails on its third example: the derivation keeps
    every dot-separated part of the base name but the last, so
    [https://x.com/a.b.c.mov] does not map to [a.b.webp]. *)
Lemma filename_third_example_differs :
  imageFileName "https://x.com/a.b.c.mov" ≠ "a.b.webp".
Proof. vm_compute. discriminate. Qed.

(** C2 (amended): the file name is a function of the URL alone, and it is
    the name the specification's derivation describes: the substring
    after the final ['/'] (the whole URL when there is none), without
    its trailing ['.']-delimited extension segment when it has one,
    followed by [.webp]; [https://x.com/a/clip.mp4] maps to
    [clip.webp], [https://x.com/noext] to [noext.webp] and
    [https://x.com/a.b.c.mov] to [a.b.c.webp]. *)
Theorem filename_derivation :
  (∀ u name, FilenameSpec.derived u name ↔ name = imageFileName u) ∧
  imageFileName "https://x.com/a/clip.mp4" = "clip.webp" ∧
  imageFileName "https://x.com/noext" = "noext.webp" ∧
  imageFileName "https://x.com/a.b.c.mov" = "a.b.c.webp".
Proof. split; [apply derived_iff|]. by vm_compute. Qed.

(** C8: a URL whose final path segment is empty (it ends in ['/'], or it
    is the empty string) has an empty base name, which the extension
    pattern does not match anywhere, so nothing is stripped and the
    derived file name is exactly [.webp]. *)
Theorem filename_of_empty_segment (u : string) :
  u = "" ∨ (∃ pre, u = pre +:+ "/") →
  videoFileName u = "" ∧
  ExtRegex.replace_with_empty (videoFileName u) = videoFileName u ∧
  imageFileName u = ".webp".
Proof.
  intros H.
  assert (videoFileName u = "") as E.
  { destruct H as [->|[pre ->]]; [done|].
    by apply videoFileName_after_slash. }
  unfold imageFileName. by rewrite E.
Qed.

Lemma filename_of_empty_segment_witness :
  ("https://x.com/videos/" = "" ∨
   ∃ pre, "https://x.com/videos/" = pre +:+ "/") ∧
  imageFileName "https://x.com/videos/" = ".webp".
Proof.
  assert ("https://x.com/videos/" = "" ∨
          ∃ pre, "https://x.com/videos/" = pre +:+ "/") as H.
  { right. exists "https://x.com/videos". reflexivity. }
  split; [exact H|].
  apply (filename_of_empty_segment "https://x.com/videos/" H).
Defined.

(** ** Running the primitives *)

Section Primitives.
Context (w : World).

Lemma run_bind {A B} (m : JS A) (k : A → JS B) st :
  (m ≫= k) st = match m st with
                | (Returned a, st') => k a st'
                | (Thrown e, st') => (Thrown e, st')
                end.
Proof. reflexivity. Qed.

Lemma run_fetch u st :
  fetch w u st =
  (match fetched w st u with
   | Some b => Returned b
   | None => Thrown (FetchFailed u)
   end, set_trace (trace st ++ [EvFetch u]) st).
Proof.
  unfold fetch, fetched, log, modify, gets. rewrite !run_bind.
  cbn [blobs set_trace].
  destruct (blobs st !! u); [done|]. by destruct (http_get w u).
Qed.

Lemma run_uuidv4 st :
  uuidv4 w st = (Returned (uuid w (uuid_calls st)),
                 set_uuid_calls (S (uuid_calls st)) st).
Proof. reflexivity. Qed.

Lemma run_createObjectURL data st :
  createObjectURL w data st =
  (Returned (object_url w (blob_calls st)),
   set_blobs (<[object_url w (blob_calls st) := data]> (blobs st))
             (S (blob_calls st)) st).
Proof. reflexivity. Qed.

Lemma run_writeFile name data st :
  FS_writeFile name data st = (Returned tt, set_FS (<[name := data]> (FS st)) st).
Proof. reflexivity. Qed.

Lemma run_readFile name st :
  FS_readFile name st =
  (match FS st !! name with
   | Some data => Returned data
   | None => Thrown (ENOENT name)
   end, st).
Proof.
  unfold FS_readFile, gets. rewrite run_bind. by destruct (FS st !! name).
Qed.

Lemma run_unlink name st data :
  FS st !! name = Some data →
  FS_unlink name st = (Returned tt, set_FS (delete name (FS st)) st).
Proof.
  intros H. unfold FS_unlink, gets. rewrite run_bind. by rewrite H.
Qed.

Lemma run_ffmpeg_run st input filter output data :
  FS st !! input = Some data →
  ffmpeg_run w ["-i"; input; "-vf"; filter; "-vframes"; "1"; output] st =
  let st1 := set_trace
    (trace st ++ [EvRun ["-i"; input; "-vf"; filter; "-vframes"; "1"; output]])
    st in
  match decode w data filter with
  | Produced img => (Returned tt, set_FS (<[output := img]> (FS st)) st1)
  | NoOutput => (Returned tt, st1)
  | Rejected => (Thrown RunRejected, st1)
  end.
Proof.
  intros H. unfold ffmpeg_run, parse_args.
  rewrite bool_decide_eq_true_2 by done.
  unfold log, modify, gets, FS_writeFile, throw. rewrite !run_bind.
  cbn [FS set_trace]. rewrite H.
  by destruct (decode w data filter).
Qed.

Lemma last_unit_app a c t : last_unit (a +:+ String c t) = last_unit (String c t).
Proof.
  induction a as [|x a IH]; [done|].
  rewrite append_cons. destruct a as [|y a]; [done|].
  by rewrite <- IH.
Qed.

Lemma mp4_not_webp a b : a +:+ ".mp4" ≠ b +:+ ".webp".
Proof.
  intros H. apply (f_equal last_unit) in H.
  by rewrite !last_unit_app in H.
Qed.

Lemma scratch_names_differ st : inputFileName w st ≠ outputFileName w st.
Proof. apply mp4_not_webp. Qed.

End Primitives.

(** ** One pass through the loop body *)

Ltac st_simpl :=
  cbn [videos images isProcessing newImages ffmpeg_created loaded
       load_calls FS uuid_calls blobs blob_calls trace
       set_videos set_images set_isProcessing set_newImages set_loaded
       set_load_calls set_FS set_uuid_calls set_blobs set_trace].

Ltac st_norm :=
  cbv beta iota delta
      [videos images isProcessing newImages ffmpeg_created loaded
       load_calls FS uuid_calls blobs blob_calls trace
       set_videos set_images set_isProcessing set_newImages set_loaded
       set_load_calls set_FS set_uuid_calls set_blobs set_trace].

Ltac js_step := cbv beta iota zeta; rewrite ?run_bind; st_simpl.

Section LoopBody.
Context (w : World).

Lemma processVideo_unreachable st v :
  fetched w st (url v) = None →
  processVideo w v st =
  (Returned tt,
   set_trace (trace st ++ [EvFetch (url v);
                           EvConsoleError (FetchFailed (url v));
                           EvAlert (alert_message v)]) st).
Proof.
  intros Hf. unfold processVideo, try_catch.
  rewrite run_bind, run_fetch, Hf. js_step.
  unfold log, modify. js_step. by rewrite <- !app_assoc.
Qed.

Lemma processVideo_extracted st v data img :
  fetched w st (url v) = Some data →
  decode w data (select_filter (frame v)) = Produced img →
  processVideo w v st = (Returned tt, after_extracted w st v data img).
Proof.
  intros Hf Hd. pose proof (scratch_names_differ w st) as Hne.
  unfold processVideo, try_catch.
  rewrite run_bind, run_fetch, Hf. js_step.
  rewrite run_uuidv4. js_step. rewrite run_writeFile. js_step.
  rewrite run_uuidv4. js_step.
  fold (inputFileName w st) (outputFileName w st) in *.
  rewrite (run_ffmpeg_run _ _ _ _ _ data) by (st_simpl; apply lookup_insert_eq).
  rewrite Hd. js_step. rewrite run_readFile. st_simpl.
  rewrite lookup_insert_eq. js_step.
  rewrite run_createObjectURL. js_step. unfold modify at 1. js_step.
  rewrite (run_unlink _ _ data).
  2:{ st_simpl. by rewrite lookup_insert_ne, lookup_insert_eq. }
  js_step. rewrite (run_unlink _ _ img).
  2:{ st_simpl. by rewrite lookup_delete_ne, lookup_insert_eq. }
  unfold after_extracted, ffmpeg_args. destruct st. st_norm.
  by rewrite <- app_assoc.
Qed.

Lemma run_handler v e st :
  (log (EvConsoleError e);; log (EvAlert (alert_message v))) st =
  (Returned tt,
   set_trace (trace st ++ [EvConsoleError e; EvAlert (alert_message v)]) st).
Proof. unfold log, modify. js_step. by rewrite <- app_assoc. Qed.

Lemma processVideo_rejected st v data :
  fetched w st (url v) = Some data →
  decode w data (select_filter (frame v)) = Rejected →
  processVideo w v st =
  (Returned tt, after_not_extracted w st v data RunRejected).
Proof.
  intros Hf Hd. unfold processVideo, try_catch.
  rewrite run_bind, run_fetch, Hf. js_step.
  rewrite run_uuidv4. js_step. rewrite run_writeFile. js_step.
  rewrite run_uuidv4. js_step.
  fold (inputFileName w st) (outputFileName w st).
  rewrite (run_ffmpeg_run _ _ _ _ _ data) by (st_simpl; apply lookup_insert_eq).
  rewrite Hd. cbv beta iota zeta. rewrite run_handler. st_simpl.
  unfold after_not_extracted, ffmpeg_args. destruct st. st_norm.
  by rewrite <- !app_assoc.
Qed.

Lemma processVideo_no_output st v data :
  fetched w st (url v) = Some data →
  decode w data (select_filter (frame v)) = NoOutput →
  FS st !! outputFileName w st = None →
  processVideo w v st =
  (Returned tt,
   after_not_extracted w st v data (ENOENT (outputFileName w st))).
Proof.
  intros Hf Hd Hout. pose proof (scratch_names_differ w st) as Hne.
  unfold processVideo, try_catch.
  rewrite run_bind, run_fetch, Hf. js_step.
  rewrite run_uuidv4. js_step. rewrite run_writeFile. js_step.
  rewrite run_uuidv4. js_step.
  fold (inputFileName w st) (outputFileName w st) in *.
  rewrite (run_ffmpeg_run _ _ _ _ _ data) by (st_simpl; apply lookup_insert_eq).
  rewrite Hd. js_step. rewrite run_readFile. st_simpl.
  rewrite lookup_insert_ne, Hout by done. cbv beta iota zeta.
  rewrite run_handler. st_simpl.
  unfold after_not_extracted, ffmpeg_args. destruct st. st_norm.
  by rewrite <- !app_assoc.
Qed.

(** An output name that is already taken in the file system: the file
    found there is read back in place of a frame. *)
Lemma processVideo_stale st v data old :
  fetched w st (url v) = Some data →
  decode w data (select_filter (frame v)) = NoOutput →
  FS st !! outputFileName w st = Some old →
  processVideo w v st =
  (Returned tt,
   set_FS (delete (outputFileName w st)
             (delete (inputFileName w st)
                (<[inputFileName w st := data]> (FS st))))
     (set_newImages
        (newImages st ++ [{| image_url := object_url w (blob_calls st);
                             filename := imageFileName (url v) |}])
        (set_blobs (<[object_url w (blob_calls st) := old]> (blobs st))
           (S (blob_calls st))
           (set_uuid_calls (S (S (uuid_calls st)))
              (set_trace (trace st ++ [EvFetch (url v);
                                       EvRun (ffmpeg_args w st v)]) st))))).
Proof.
  intros Hf Hd Hout. pose proof (scratch_names_differ w st) as Hne.
  unfold processVideo, try_catch.
  rewrite run_bind, run_fetch, Hf. js_step.
  rewrite run_uuidv4. js_step. rewrite run_writeFile. js_step.
  rewrite run_uuidv4. js_step.
  fold (inputFileName w st) (outputFileName w st) in *.
  rewrite (run_ffmpeg_run _ _ _ _ _ data) by (st_simpl; apply lookup_insert_eq).
  rewrite Hd. js_step. rewrite run_readFile. st_simpl.
  rewrite lookup_insert_ne, Hout by done. js_step.
  rewrite run_createObjectURL. js_step. unfold modify at 1. js_step.
  rewrite (run_unlink _ _ data) by (st_simpl; apply lookup_insert_eq).
  js_step. rewrite (run_unlink _ _ old).
  2:{ st_simpl. by rewrite lookup_delete_ne, lookup_insert_ne. }
  unfold ffmpeg_args. destruct st. st_norm.
  by rewrite <- app_assoc.
Qed.

Lemma effect_refl st : effect w st st [] [].
Proof. unfold effect. by rewrite !app_nil_r. Qed.

Lemma effect_trans st1 st2 st3 imgs1 evs1 imgs2 evs2 :
  effect w st1 st2 imgs1 evs1 → effect w st2 st3 imgs2 evs2 →
  effect w st1 st3 (imgs1 ++ imgs2) (evs1 ++ evs2).
Proof.
  intros (Ht & Hn & ? & ? & ? & ? & ? & ? & Hc & Hb)
         (Ht' & Hn' & ? & ? & ? & ? & ? & ? & Hc' & Hb').
  unfold effect. rewrite Ht', Ht, Hn', Hn, !app_assoc.
  repeat split; try congruence; [lia|].
  intros u Hu. rewrite Hb', Hb; [done..|].
  intros n Hle. apply Hu. lia.
Qed.

Lemma valid_input_effect st st' imgs evs v :
  effect w st st' imgs evs → valid_input w st v → valid_input w st' v.
Proof.
  intros (_ & _ & _ & _ & _ & _ & _ & _ & Hc & Hb)
         [Hu (data & img & Hf & Hd)].
  split; [intros n Hle; apply Hu; lia|].
  exists data, img. split; [|done].
  unfold fetched in *. by rewrite Hb.
Qed.

Lemma processVideo_step st v :
  ∃ r evs st',
    processVideo w v st = (Returned tt, st') ∧ item_trace v r evs ∧
    effect w st st' (option_list r) evs ∧
    (extractable w st v → is_Some r).
Proof.
  destruct (fetched w st (url v)) as [data|] eqn:Hf.
  - destruct (decode w data (select_filter (frame v))) as [img| |] eqn:Hd.
    + exists (Some {| image_url := object_url w (blob_calls st);
                       filename := imageFileName (url v) |}),
        [EvFetch (url v); EvRun (ffmpeg_args w st v)].
      eexists. split; [by apply processVideo_extracted|].
      split; [by apply item_done|]. split; [|by eauto].
      unfold effect, after_extracted. st_simpl. repeat split; [lia|].
      intros u Hu. rewrite lookup_insert_ne; [done|]. by apply Hu.
    + destruct (FS st !! outputFileName w st) as [old|] eqn:Hout.
      * exists (Some {| image_url := object_url w (blob_calls st);
                         filename := imageFileName (url v) |}),
          [EvFetch (url v); EvRun (ffmpeg_args w st v)].
        eexists. split; [by eapply processVideo_stale|].
        split; [by apply item_done|]. split; [|by eauto].
        unfold effect. st_simpl. repeat split; [lia|].
        intros u Hu. rewrite lookup_insert_ne; [done|]. by apply Hu.
      * eexists None, _, _. split; [by apply processVideo_no_output|].
        split; [apply item_extract_failed|]. split.
        -- unfold effect, after_not_extracted. st_simpl.
           by rewrite app_nil_r.
        -- intros (? & ? & ? & ?). congruence.
    + eexists None, _, _. split; [by apply processVideo_rejected|].
      split; [apply item_extract_failed|]. split.
      * unfold effect, after_not_extracted. st_simpl. by rewrite app_nil_r.
      * intros (? & ? & ? & ?). congruence.
  - eexists None, _, _. split; [by apply processVideo_unreachable|].
    split; [apply item_fetch_failed|]. split.
    + unfold effect. st_simpl. by rewrite app_nil_r.
    + intros (? & ? & ? & ?). congruence.
Qed.

(** The loop, item by item: every input has its record, the pair of
    the image it contributed (if any) and its events. *)
Lemma for_of_processVideo st vs :
  ∃ items st',
    for_of vs (processVideo w) st = (Returned tt, st') ∧
    Forall2 (λ v it, item_trace v it.1 it.2 ∧
                     (valid_input w st v → is_Some it.1)) vs items ∧
    effect w st st' (omap fst items) (concat items.*2).
Proof.
  revert st. induction vs as [|v vs IH]; intros st.
  - exists [], st. split; [done|]. split; [constructor|apply effect_refl].
  - destruct (processVideo_step st v) as (r & evs & st1 & E1 & Hit & He & Hr).
    destruct (IH st1) as (items & st' & E & Hall & He').
    exists ((r, evs) :: items), st'. split; [|split].
    + cbn [for_of]. by rewrite run_bind, E1.
    + constructor.
      * split; [done|]. intros [_ ?]. auto.
      * eapply Forall2_impl; [exact Hall|]. intros v' it [? Hv]. split; [done|].
        intros ?. eapply Hv, valid_input_effect; eauto.
    + replace (omap fst ((r, evs) :: items))
        with (option_list r ++ omap fst items) by by destruct r.
      cbn [fmap list_fmap concat snd]. by eapply effect_trans.
Qed.

End LoopBody.

(** ** The loop (page.tsx, lines 67-113) *)

Section Loop.
Context (w : World).

Lemma alerts_app tr1 tr2 : alerts (tr1 ++ tr2) = alerts tr1 ++ alerts tr2.
Proof. apply omap_app. Qed.

Lemma fetches_app tr1 tr2 : fetches (tr1 ++ tr2) = fetches tr1 ++ fetches tr2.
Proof. apply omap_app. Qed.

Lemma load_events_app tr1 tr2 :
  load_events (tr1 ++ tr2) = load_events tr1 ++ load_events tr2.
Proof. apply omap_app. Qed.

Lemma item_trace_summary v r evs :
  item_trace v r evs →
  alerts evs = match r with Some _ => [] | None => [alert_message v] end ∧
  fetches evs = [url v] ∧ load_events evs = [] ∧
  ∀ im, r = Some im → filename im = imageFileName (url v).
Proof. destruct 1; repeat split; try done. by intros ? [= <-]. Qed.

Lemma items_summary (valid : IVideoInput → Prop) vs
    (items : list (option IImageData * list event)) :
  Forall2 (λ v it, item_trace v it.1 it.2 ∧ (valid v → is_Some it.1))
          vs items →
  ∃ failed,
    failed `sublist_of` vs ∧
    alerts (concat items.*2) = alert_message <$> failed ∧
    fetches (concat items.*2) = url <$> vs ∧
    load_events (concat items.*2) = [] ∧
    length (omap fst items) + length failed = length vs ∧
    Forall (λ v, ¬ valid v) failed ∧
    ∀ v, v ∈ vs → valid v →
         ∃ im, im ∈ omap fst items ∧ filename im = imageFileName (url v).
Proof.
  induction 1 as [|v [r evs] vs items [Hit Hv] _ IH].
  - exists []. repeat split; try done. by intros v ?%elem_of_nil.
  - destruct IH as (failed & Hsub & Ha & Hf & Hl & Hlen & Hnv & Hres).
    apply item_trace_summary in Hit as (Ha1 & Hf1 & Hl1 & Hname).
    cbn [fst snd] in *. cbn [fmap list_fmap concat snd].
    rewrite alerts_app, fetches_app, load_events_app, Ha1, Hf1, Hl1, Ha, Hf, Hl.
    destruct r as [im|].
    + exists failed. split; [by apply sublist_cons|].
      repeat split; try done.
      * cbn. lia.
      * intros v' [->|Hin]%elem_of_cons Hvalid.
        -- exists im. split; [apply list_elem_of_here|by apply Hname].
        -- destruct (Hres v' Hin Hvalid) as (im' & ? & ?).
           exists im'. split; [by apply list_elem_of_further|done].
    + exists (v :: failed). split; [by apply sublist_skip|].
      repeat split; try done.
      * cbn. lia.
      * constructor; [|done]. intros [? [=]]%Hv.
      * intros v' [->|Hin]%elem_of_cons Hvalid.
        -- by destruct (Hv Hvalid) as [? [=]].
        -- apply (Hres v' Hin Hvalid).
Qed.

Lemma items_all_valid (valid : IVideoInput → Prop) vs
    (items : list (option IImageData * list event)) :
  Forall2 (λ v it, item_trace v it.1 it.2 ∧ (valid v → is_Some it.1))
          vs items →
  Forall valid vs →
  filename <$> omap fst items = (λ v, imageFileName (url v)) <$> vs ∧
  alerts (concat items.*2) = [].
Proof.
  induction 1 as [|v [r evs] vs items [Hit Hv] _ IH]; [done|].
  intros [Hvalid Hrest]%Forall_cons. destruct (IH Hrest) as [IHn IHa].
  apply item_trace_summary in Hit as (Ha1 & _ & _ & Hname).
  cbn [fst snd] in *. destruct (Hv Hvalid) as [im ->].
  cbn [fmap list_fmap concat snd]. rewrite alerts_app, Ha1, IHa.
  split; [|done]. cbn. f_equal; [by apply Hname|done].
Qed.



End Loop.

(** ** The whole handler *)

Section Batch.
Context (w : World).

Lemma handleProcess_absent st :
  ffmpeg_created st = false → handleProcess w st = (Returned tt, st).
Proof.
  intros H. unfold handleProcess, gets. rewrite run_bind. cbv beta iota.
  by rewrite H.
Qed.

Lemma handleProcess_ready st :
  engine_ready w st →
  handleProcess w st =
  (Returned tt,
   let st1 := (for_of (videos st) (processVideo w) (engine_started st)).2 in
   set_isProcessing false (set_images (newImages st1) st1)).
Proof.
  intros [Hc Hl]. unfold handleProcess, ffmpeg_isLoaded, gets, modify.
  js_step. rewrite Hc. cbn [negb]. js_step.
  assert (∀ k : JS unit,
    ((if negb (loaded st) then ffmpeg_load w else mret ()) ≫= λ _, k)
      (set_newImages [] (set_isProcessing true st)) =
    k (engine_started st)) as Hload.
  { intros k. unfold engine_started. rewrite run_bind.
    destruct (loaded st) eqn:El; [done|]. destruct Hl as [|Hok]; [done|].
    cbn [negb]. unfold ffmpeg_load, gets, modify, log. js_step.
    by rewrite Hok. }
  rewrite <- run_bind, Hload. js_step.
  assert (videos (engine_started st) = videos st) as ->.
  { unfold engine_started. by destruct (loaded st). }
  destruct (for_of_processVideo w (engine_started st) (videos st))
    as (items & st1 & -> & _). by js_step.
Qed.

Lemma handleProcess_load_fails st :
  ffmpeg_created st = true → loaded st = false →
  load_ok w (load_calls st) = false →
  handleProcess w st =
  (Thrown LoadFailed,
   set_trace (trace st ++ [EvLoad false])
     (set_load_calls (S (load_calls st))
        (set_newImages [] (set_isProcessing true st)))).
Proof.
  intros Hc Hl Hf.
  unfold handleProcess, ffmpeg_isLoaded, ffmpeg_load, gets, modify, log.
  js_step. rewrite Hc. cbn [negb]. js_step. rewrite Hl. cbn [negb].
  js_step. by rewrite Hf.
Qed.

Lemma valid_input_blobs st st' v :
  blobs st' = blobs st → blob_calls st' = blob_calls st →
  valid_input w st v → valid_input w st' v.
Proof.
  intros Hb Hc [Hu (data & img & Hf & Hd)]. split.
  - unfold not_reminted in *. by rewrite Hc.
  - exists data, img. split; [|done]. unfold fetched in *. by rewrite Hb.
Qed.

Lemma engine_started_facts st :
  let st0 := engine_started st in
  (blobs st0 = blobs st ∧ blob_calls st0 = blob_calls st) ∧
  videos st0 = videos st ∧ newImages st0 = [] ∧
  alerts (trace st0) = alerts (trace st) ∧
  fetches (trace st0) = fetches (trace st) ∧ loaded st0 = true ∧
  load_events (trace st0) =
    load_events (trace st) ++ (if loaded st then [] else [true]).
Proof.
  unfold engine_started. destruct (loaded st) eqn:El; st_simpl.
  - by rewrite app_nil_r.
  - by rewrite alerts_app, fetches_app, load_events_app, !app_nil_r.
Qed.

(** C3: when the engine is available and every input can be fetched
    and yields its frame, the batch returns normally with one image
    per input, named after the inputs in their order, and raises no
    alert: the results are as long as the input list and nothing is
    reported as failed. This holds for every input list, the non-empty
    ones in particular. *)
Theorem all_valid_batch (st : State) :
  engine_ready w st →
  Forall (valid_input w st) (videos st) →
  ∃ st',
    handleProcess w st = (Returned tt, st') ∧
    length (images st') = length (videos st) ∧
    filename <$> images st' = (λ v, imageFileName (url v)) <$> videos st ∧
    alerts (trace st') = alerts (trace st) ∧
    isProcessing st' = false.
Proof.
  intros Hready Hvalid. eexists. split; [by apply handleProcess_ready|].
  destruct (engine_started_facts st) as ([Hb Hc] & Hv & Hn & Ha & _).
  destruct (for_of_processVideo w (engine_started st) (videos st))
    as (items & st1 & E & Hall & He).
  rewrite E. cbn [snd]. st_simpl.
  destruct (items_all_valid _ _ _ Hall) as [Hnames Hnone].
  { eapply Forall_impl; [exact Hvalid|]. intros v. by apply valid_input_blobs. }
  destruct He as (Ht & Hnew & _). rewrite Hn in Hnew. cbn in Hnew.
  rewrite Ht, alerts_app, Hnone, app_nil_r, Ha, Hnew, Hnames.
  split; [|done].
  by rewrite <- (length_fmap filename), Hnames, length_fmap.
Qed.



(** C10: when the engine is not loaded and [ffmpeg.load()] fails, the
    batch throws the load error with nothing but the load attempt in
    the trace: no input was fetched and no command was run, no scratch
    name was drawn and no file written; the result list [images] is
    the one held before, and [isProcessing] stays set. *)
Theorem load_failure_leaves_results (st : State) :
  ffmpeg_created st = true →
  loaded st = false →
  load_ok w (load_calls st) = false →
  ∃ st',
    handleProcess w st = (Thrown LoadFailed, st') ∧
    images st' = images st ∧
    trace st' = trace st ++ [EvLoad false] ∧
    fetches (trace st') = fetches (trace st) ∧
    FS st' = FS st ∧ uuid_calls st' = uuid_calls st ∧
    blobs st' = blobs st ∧ isProcessing st' = true.
Proof.
  intros Hc Hl Hf. eexists. split; [by apply handleProcess_load_fails|].
  st_simpl. by rewrite fetches_app, app_nil_r.
Qed.

(** The success path does release both scratch files. *)
Lemma scratch_released_when_extracted st v data img :
  FS (after_extracted w st v data img) !! inputFileName w st = None ∧
  FS (after_extracted w st v data img) !! outputFileName w st = None.
Proof.
  pose proof (scratch_names_differ w st).
  unfold after_extracted. st_simpl. split.
  - by rewrite lookup_delete_ne, lookup_delete_eq.
  - by rewrite lookup_delete_eq.
Qed.

(** C4 fails on the code: the two [unlink] calls sit at the end of the
    [try] block, so an item whose video was fetched and staged but
    whose frame could not be read back (the command is rejected, or it
    ends without an output file) leaves the staged input file in the
    engine's file system. *)
Theorem staged_input_left_behind (st : State) (v : IVideoInput) (data : bytes) :
  fetched w st (url v) = Some data →
  decode w data (select_filter (frame v)) = Rejected ∨
  (decode w data (select_filter (frame v)) = NoOutput ∧
   FS st !! outputFileName w st = None) →
  ∃ st',
    processVideo w v st = (Returned tt, st') ∧
    FS st' = <[inputFileName w st := data]> (FS st) ∧
    FS st' !! inputFileName w st = Some data.
Proof.
  intros Hf [Hd|[Hd Hout]]; eexists.
  - split; [by apply processVideo_rejected|].
    unfold after_not_extracted. st_simpl. by rewrite lookup_insert_eq.
  - split; [by apply processVideo_no_output|].
    unfold after_not_extracted. st_simpl. by rewrite lookup_insert_eq.
Qed.

Lemma zip_images_loads imgs zip st :
  loaded (zip_images w imgs zip st).2 = loaded st ∧
  load_events (trace (zip_images w imgs zip st).2) = load_events (trace st).
Proof.
  revert zip st. induction imgs as [|im imgs IH]; intros zip st; [done|].
  cbn [zip_images]. rewrite run_bind, run_fetch.
  destruct (fetched w st (image_url im)) as [b|].
  - destruct (IH (zip_file (filename im) b zip)
                 (set_trace (trace st ++ [EvFetch (image_url im)]) st))
      as [-> ->].
    st_simpl. by rewrite load_events_app, app_nil_r.
  - cbn [snd]. st_simpl. by rewrite load_events_app, app_nil_r.
Qed.

Lemma handleDownloadAll_loads st :
  loaded (handleDownloadAll w st).2 = loaded st ∧
  load_events (trace (handleDownloadAll w st).2) = load_events (trace st).
Proof.
  unfold handleDownloadAll, packageArchive, gets, log, modify. js_step.
  pose proof (zip_images_loads (images st) [] st) as [Hl Ht].
  destruct (zip_images w (images st) [] st) as [[zip|e] st1];
    cbn [snd] in *; st_simpl; [|done].
  by rewrite load_events_app, app_nil_r.
Qed.

Lemma handleProcess_loads st :
  let st' := (handleProcess w st).2 in
  if loaded st
  then loaded st' = true ∧ load_events (trace st') = load_events (trace st)
  else (loaded st' = false ∧ load_events (trace st') = load_events (trace st))
       ∨ load_events (trace st') = load_events (trace st) ++ [loaded st'].
Proof.
  cbv zeta. destruct (ffmpeg_created st) eqn:Hc.
  2:{ rewrite handleProcess_absent by done. cbn [snd].
      destruct (loaded st) eqn:El; [done|by left]. }
  assert (engine_ready w st →
    loaded (handleProcess w st).2 = true ∧
    load_events (trace (handleProcess w st).2) =
      load_events (trace st) ++ (if loaded st then [] else [true])) as Hready.
  { intros Hr. rewrite handleProcess_ready by done. cbn [snd].
    destruct (engine_started_facts st) as (_ & _ & _ & _ & _ & Hl & Hle).
    destruct (for_of_processVideo w (engine_started st) (videos st))
      as (items & st1 & E & Hall & He).
    rewrite E. cbn [snd]. st_simpl.
    destruct (items_summary _ _ _ Hall) as (_ & _ & _ & _ & Hnone & _).
    destruct He as (Ht & _ & _ & _ & _ & _ & Hl1 & _).
    rewrite Hl1, Ht, load_events_app, Hnone, app_nil_r. done. }
  destruct (loaded st) eqn:El.
  - destruct Hready as [-> ->].
    { split; auto. }
    by rewrite app_nil_r.
  - destruct (load_ok w (load_calls st)) eqn:Hok.
    + destruct Hready as [-> ->].
      { split; auto. }
      by right.
    + rewrite handleProcess_load_fails by done. cbn [snd]. st_simpl.
      right. by rewrite load_events_app, El.
Qed.

Lemma perform_loads st a :
  let st' := perform w st a in
  if loaded st
  then loaded st' = true ∧ load_events (trace st') = load_events (trace st)
  else (loaded st' = false ∧ load_events (trace st') = load_events (trace st))
       ∨ load_events (trace st') = load_events (trace st) ++ [loaded st'].
Proof.
  assert (∀ s : State,
    if loaded s
    then loaded s = true ∧ load_events (trace s) = load_events (trace s)
    else (loaded s = false ∧ load_events (trace s) = load_events (trace s))
         ∨ load_events (trace s) = load_events (trace s) ++ [loaded s])
    as Hsame.
  { intros s. destruct (loaded s) eqn:E; [done|by left]. }
  destruct a as [update| |]; cbn [perform].
  - apply (Hsame st).
  - destruct (isProcessing st); [apply Hsame|apply handleProcess_loads].
  - destruct (images st); [apply Hsame|].
    destruct (handleDownloadAll_loads st) as [-> ->]. apply Hsame.
Qed.

Lemma lifetime_snoc acts a st :
  lifetime w (acts ++ [a]) st = perform w (lifetime w acts st) a.
Proof. unfold lifetime. by rewrite foldl_app. Qed.

Lemma lifetime_stays_loaded more st :
  loaded st = true →
  loaded (lifetime w more st) = true ∧
  load_events (trace (lifetime w more st)) = load_events (trace st).
Proof.
  revert st. induction more as [|a more IH]; intros st Hl; [done|].
  pose proof (perform_loads st a) as H. rewrite Hl in H.
  destruct H as [Hl' Ht']. destruct (IH _ Hl') as [? ?].
  split; [done|]. unfold lifetime in *. cbn [foldl]. congruence.
Qed.

Lemma lifetime_load_events acts :
  ∃ k, load_events (trace (lifetime w acts initial_state)) =
       replicate k false ++
       (if loaded (lifetime w acts initial_state) then [true] else []).
Proof.
  induction acts as [|a acts IH] using rev_ind; [by exists 0|].
  rewrite lifetime_snoc. destruct IH as [k IH].
  pose proof (perform_loads (lifetime w acts initial_state) a) as H.
  cbv zeta in H.
  destruct (loaded (lifetime w acts initial_state)).
  - destruct H as [-> ->]. by exists k.
  - destruct H as [[-> ->]| ->]; [by exists k|].
    rewrite IH, app_nil_r.
    destruct (loaded (perform _ _ _)); [by exists k|].
    exists (S k). by rewrite app_nil_r, replicate_S_end.
Qed.

(** C7: a batch started with the engine loaded does not call
    [ffmpeg.load()] and leaves the engine loaded; over any sequence of
    user actions from the first render, the outcomes of the load calls
    are failures followed by at most one success, which is the last
    load call of all; and from a state where the engine is loaded, no
    further sequence of actions produces another load call. *)
Theorem engine_initialized_at_most_once :
  (∀ st, loaded st = true →
         loaded (handleProcess w st).2 = true ∧
         load_events (trace (handleProcess w st).2) = load_events (trace st)) ∧
  (∀ acts, ∃ k,
     load_events (trace (lifetime w acts initial_state)) =
     replicate k false ++
     (if loaded (lifetime w acts initial_state) then [true] else [])) ∧
  (∀ st more, loaded st = true →
     loaded (lifetime w more st) = true ∧
     load_events (trace (lifetime w more st)) = load_events (trace st)).
Proof.
  split; [|split].
  - intros st Hl. pose proof (handleProcess_loads st) as H.
    by rewrite Hl in H.
  - apply lifetime_load_events.
  - intros st more. apply lifetime_stays_loaded.
Qed.

End Batch.

(** ** The archive (page.tsx, lines 120-138) *)

Section Archive.
Context (w : World).

Lemma zip_file_names name data zip :
  (zip_file name data zip).*1 =
  if decide (name ∈ zip.*1) then zip.*1 else zip.*1 ++ [name].
Proof.
  induction zip as [|[n d] zip IH]; [done|].
  cbn [zip_file]. destruct (decide (n = name)) as [->|Hne].
  - rewrite decide_True; [done|]. cbn. apply list_elem_of_here.
  - cbn [fmap list_fmap fst] in *. rewrite IH.
    destruct (decide (name ∈ zip.*1)) as [Hin|Hnin].
    + rewrite decide_True; [done|]. by apply list_elem_of_further.
    + rewrite decide_False; [done|].
      intros [?|?]%elem_of_cons; [congruence|done].
Qed.

Lemma zip_file_fresh name data zip :
  name ∉ zip.*1 → zip_file name data zip = zip ++ [(name, data)].
Proof.
  induction zip as [|[n d] zip IH]; [done|].
  intros [Hne Hnin]%not_elem_of_cons. cbn [zip_file].
  rewrite decide_False by done. by rewrite IH.
Qed.

Lemma zip_file_NoDup name data zip :
  NoDup zip.*1 → NoDup (zip_file name data zip).*1.
Proof.
  intros Hnd. rewrite zip_file_names. case_decide; [done|].
  apply NoDup_app. split; [done|]. split; [|apply NoDup_singleton].
  by intros x Hx ->%list_elem_of_singleton.
Qed.

Lemma entries_named_absent name zip :
  name ∉ zip.*1 → entries_named name zip = [].
Proof.
  unfold entries_named. induction zip as [|[n d] zip IH]; [done|].
  intros [Hne Hnin]%not_elem_of_cons. rewrite filter_cons_False by done.
  by apply IH.
Qed.

Lemma entries_named_written name data zip :
  NoDup zip.*1 → entries_named name (zip_file name data zip) = [data].
Proof.
  unfold entries_named. induction zip as [|[n d] zip IH]; intros Hnd.
  - cbn [zip_file]. by rewrite filter_cons_True.
  - apply NoDup_cons in Hnd as [Hnin Hnd]. cbn [zip_file].
    destruct (decide (n = name)) as [->|Hne].
    + rewrite filter_cons_True by done. cbn [fmap list_fmap snd].
      f_equal. by apply (entries_named_absent name zip).
    + rewrite filter_cons_False by done. by apply IH.
Qed.

Lemma entries_named_other name name' data zip :
  name' ≠ name →
  entries_named name (zip_file name' data zip) = entries_named name zip.
Proof.
  intros Hne. unfold entries_named.
  induction zip as [|[n d] zip IH].
  - cbn [zip_file]. by rewrite filter_cons_False.
  - cbn [zip_file]. destruct (decide (n = name')) as [->|Hn].
    + by rewrite !filter_cons_False.
    + destruct (decide (n = name)) as [->|Hn'].
      * rewrite !filter_cons_True by done. cbn [fmap list_fmap]. by rewrite IH.
      * by rewrite !filter_cons_False.
Qed.

Lemma pack_snoc entries e : pack (entries ++ [e]) = zip_file e.1 e.2 (pack entries).
Proof. unfold pack. by rewrite foldl_app. Qed.

Lemma pack_NoDup entries : NoDup (pack entries).*1.
Proof.
  induction entries as [|e entries IH] using rev_ind; [constructor|].
  rewrite pack_snoc. by apply zip_file_NoDup.
Qed.

Lemma pack_names entries n : n ∈ (pack entries).*1 ↔ n ∈ entries.*1.
Proof.
  induction entries as [|e entries IH] using rev_ind; [done|].
  rewrite pack_snoc, zip_file_names, fmap_app, elem_of_app. cbn.
  rewrite list_elem_of_singleton. case_decide as Hin.
  - rewrite IH. split; [auto|]. intros [?| ->]; [done|]. by apply IH.
  - by rewrite elem_of_app, list_elem_of_singleton, IH.
Qed.

Lemma pack_distinct entries : NoDup entries.*1 → pack entries = entries.
Proof.
  induction entries as [|[n d] entries IH] using rev_ind; [done|].
  rewrite fmap_app. intros (Hnd & Hnin & _)%NoDup_app.
  rewrite pack_snoc, IH by done. apply zip_file_fresh.
  intros Hin. apply (Hnin n Hin). apply list_elem_of_here.
Qed.

Lemma pack_last_wins before name data after :
  name ∉ after.*1 →
  entries_named name (pack (before ++ (name, data) :: after)) = [data].
Proof.
  induction after as [|[n d] after IH] using rev_ind; intros Hnin.
  - rewrite pack_snoc. apply entries_named_written, pack_NoDup.
  - rewrite fmap_app, not_elem_of_app in Hnin. destruct Hnin as [Hnin Hn].
    rewrite app_comm_cons, app_assoc, pack_snoc.
    rewrite entries_named_other; [by apply IH|].
    cbn. intros ->. apply Hn. apply list_elem_of_here.
Qed.

Lemma zip_images_run imgs contents (acc : JSZip) st :
  Forall2 (λ im b, fetched w st (image_url im) = Some b) imgs contents →
  zip_images w imgs acc st =
  (Returned (foldl (λ z e, zip_file e.1 e.2 z) acc
               (zip (filename <$> imgs) contents)),
   set_trace (trace st ++ (EvFetch <$> (image_url <$> imgs))) st).
Proof.
  revert contents acc st.
  induction imgs as [|im imgs IH]; intros contents acc st H.
  - apply Forall2_nil_inv_l in H as ->. cbn. rewrite app_nil_r.
    by destruct st.
  - apply Forall2_cons_inv_l in H as (b & contents' & Hb & Hrest & ->).
    cbn [zip_images]. rewrite run_bind, run_fetch, Hb. cbv beta iota.
    rewrite (IH contents') by exact Hrest.
    cbn [fmap list_fmap zip zip_with foldl fst snd]. st_simpl.
    destruct st. st_norm. by rewrite <- app_assoc.
Qed.

Lemma packageArchive_run st contents :
  Forall2 (λ im b, fetched w st (image_url im) = Some b)
          (images st) contents →
  packageArchive w st =
  (Returned (pack (zip (filename <$> images st) contents)),
   set_trace (trace st ++ (EvFetch <$> (image_url <$> images st))) st).
Proof.
  intros H. unfold packageArchive, gets. rewrite run_bind. cbv beta iota.
  by rewrite (zip_images_run _ contents).
Qed.

Lemma zip_names_contents (imgs : list IImageData) (contents : list bytes) :
  length imgs = length contents →
  (zip (filename <$> imgs) contents).*1 = filename <$> imgs.
Proof. intros H. apply fst_zip. rewrite length_fmap. lia. Qed.

(** C5, as stated, fails when two images share a file name: the
    archive of the page [Demo.clash], which holds two images named
    [clip.webp], does not have one entry per image. *)
Lemma clash_not_one_entry_per_image :
  ¬ one_entry_per_image Demo.world Demo.clash.
Proof.
  intros H. specialize (H [Demo.poster; Demo.still]).
  assert (Forall2 (λ im b, fetched Demo.world Demo.clash (image_url im) = Some b)
            (images Demo.clash) [Demo.poster; Demo.still]) as Hc.
  { repeat constructor. }
  specialize (H Hc). vm_compute in H. discriminate H.
Qed.

(** C5 (amended): for images with pairwise distinct file names, the
    archive has exactly one entry per image, in the order of the images,
    each with the image's file name and the bytes its object URL
    resolves to; the entries read back from the archive are the names
    and bytes that were packed. *)
Theorem archive_of_distinct_names (st : State) (contents : list bytes) :
  NoDup (filename <$> images st) →
  Forall2 (λ im b, fetched w st (image_url im) = Some b)
          (images st) contents →
  ∃ st',
    packageArchive w st =
      (Returned (zip (filename <$> images st) contents), st') ∧
    length (zip (filename <$> images st) contents) = length (images st).
Proof.
  intros Hnd H. pose proof (Forall2_length _ _ _ H) as Hlen.
  eexists. split.
  - rewrite (packageArchive_run _ contents) by done.
    rewrite pack_distinct; [done|]. by rewrite zip_names_contents.
  - rewrite length_zip, length_fmap. lia.
Qed.

(** C9: the archive never holds two entries of one name, and its names
    are the file names of the images, unchanged; an image that is the
    last of its file name in the sequence has its bytes as the only
    content stored under that name, whatever images of the same name
    come before it. *)
Theorem archive_last_write_wins (st : State) (contents : list bytes) :
  Forall2 (λ im b, fetched w st (image_url im) = Some b)
          (images st) contents →
  ∃ (archive : JSZip) st',
    packageArchive w st = (Returned archive, st') ∧
    NoDup archive.*1 ∧
    (∀ n, n ∈ archive.*1 ↔ n ∈ filename <$> images st) ∧
    ∀ before im after b,
      images st = before ++ im :: after →
      filename im ∉ filename <$> after →
      fetched w st (image_url im) = Some b →
      entries_named (filename im) archive = [b].
Proof.
  intros H. pose proof (Forall2_length _ _ _ H) as Hlen.
  eexists _, _. split; [by apply (packageArchive_run _ contents)|].
  split; [apply pack_NoDup|]. split.
  - intros n. by rewrite pack_names, zip_names_contents.
  - intros before im after b E Hlast Hb. rewrite E in H |- *.
    apply Forall2_app_inv_l in H as (c1 & c2 & H1 & H2 & ->).
    apply Forall2_cons_inv_l in H2 as (b' & c3 & Hb' & H3 & ->).
    assert (b' = b) as -> by congruence.
    rewrite fmap_app, fmap_cons.
    rewrite zip_with_app by (rewrite length_fmap; by eapply Forall2_length).
    cbn [zip_with]. apply pack_last_wins.
    rewrite zip_names_contents; [done|by eapply Forall2_length].
Qed.

End Archive.

(** ** The statements at work on the concrete page *)

Section Witnesses.
Import Demo.

Lemma not_minted (u : string) st :
  String.get 0 u ≠ Some "b"%char → not_reminted world st u.
Proof.
  intros Hu n _ <-. apply Hu. cbn [object_url world].
  by rewrite append_cons.
Qed.

Lemma good_is_valid st : blobs st = ∅ → valid_input world st good.
Proof.
  intros Hb. split; [by apply not_minted|].
  exists clip, poster. unfold fetched. rewrite Hb, lookup_empty.
  split; reflexivity.
Qed.

Lemma all_valid_batch_witness :
  engine_ready world (page [good; good]) ∧
  Forall (valid_input world (page [good; good])) (videos (page [good; good])) ∧
  ∃ st',
    handleProcess world (page [good; good]) = (Returned tt, st') ∧
    length (images st') = 2 ∧
    filename <$> images st' = ["clip.webp"; "clip.webp"] ∧
    alerts (trace st') = [] ∧
    isProcessing st' = false.
Proof.
  assert (engine_ready world (page [good; good])) as Hr.
  { split; [reflexivity|right; reflexivity]. }
  assert (Forall (valid_input world (page [good; good]))
                 (videos (page [good; good]))) as Hv.
  { do 2 (apply Forall_cons_2; [apply good_is_valid; reflexivity|]).
    apply Forall_nil_2. }
  split; [exact Hr|]. split; [exact Hv|].
  apply (all_valid_batch world (page [good; good]) Hr Hv).
Defined.



Lemma load_failure_leaves_results_witness :
  ffmpeg_created shown = true ∧ loaded shown = false ∧
  load_ok offline (load_calls shown) = false ∧
  ∃ st',
    handleProcess offline shown = (Thrown LoadFailed, st') ∧
    images st' = images shown ∧
    trace st' = trace shown ++ [EvLoad false] ∧
    fetches (trace st') = fetches (trace shown) ∧
    FS st' = FS shown ∧ uuid_calls st' = uuid_calls shown ∧
    blobs st' = blobs shown ∧ isProcessing st' = true.
Proof.
  split; [reflexivity|]. split; [reflexivity|]. split; [reflexivity|].
  apply (load_failure_leaves_results offline shown); reflexivity.
Defined.

Lemma staged_input_left_behind_witness :
  fetched world (page [bad]) (url bad) = Some junk ∧
  (decode world junk (select_filter (frame bad)) = Rejected ∨
   (decode world junk (select_filter (frame bad)) = NoOutput ∧
    FS (page [bad]) !! outputFileName world (page [bad]) = None)) ∧
  ∃ st',
    processVideo world bad (page [bad]) = (Returned tt, st') ∧
    FS st' = <[inputFileName world (page [bad]) := junk]> (FS (page [bad])) ∧
    FS st' !! inputFileName world (page [bad]) = Some junk.
Proof.
  assert (fetched world (page [bad]) (url bad) = Some junk) as Hf
    by reflexivity.
  assert (decode world junk (select_filter (frame bad)) = Rejected ∨
          (decode world junk (select_filter (frame bad)) = NoOutput ∧
           FS (page [bad]) !! outputFileName world (page [bad]) = None)) as Hd.
  { right. split; reflexivity. }
  split; [exact Hf|]. split; [exact Hd|].
  apply (staged_input_left_behind world (page [bad]) bad junk Hf Hd).
Defined.

Lemma engine_initialized_at_most_once_witness :
  loaded warm = true ∧
  loaded (handleProcess world warm).2 = true ∧
  load_events (trace (handleProcess world warm).2) = load_events (trace warm).
Proof.
  split; [reflexivity|].
  apply (proj1 (engine_initialized_at_most_once world) warm). reflexivity.
Defined.

Lemma archive_of_distinct_names_witness :
  NoDup (filename <$> images pair) ∧
  Forall2 (λ im b, fetched world pair (image_url im) = Some b)
          (images pair) [poster; still] ∧
  ∃ st',
    packageArchive world pair =
      (Returned [("a.webp", poster); ("b.webp", still)], st') ∧
    length [("a.webp", poster); ("b.webp", still)] = 2.
Proof.
  assert (NoDup (filename <$> images pair)) as Hnd.
  { cbn. apply NoDup_cons. split; [|apply NoDup_singleton].
    intros H%list_elem_of_singleton. discriminate H. }
  assert (Forall2 (λ im b, fetched world pair (image_url im) = Some b)
                  (images pair) [poster; still]) as Hc.
  { repeat constructor. }
  split; [exact Hnd|]. split; [exact Hc|].
  apply (archive_of_distinct_names world pair [poster; still] Hnd Hc).
Defined.

Lemma archive_last_write_wins_witness :
  Forall2 (λ im b, fetched world clash (image_url im) = Some b)
          (images clash) [poster; still] ∧
  ∃ (archive : JSZip) st',
    packageArchive world clash = (Returned archive, st') ∧
    NoDup archive.*1 ∧
    (∀ n, n ∈ archive.*1 ↔ n ∈ filename <$> images clash) ∧
    ∀ before im after b,
      images clash = before ++ im :: after →
      filename im ∉ filename <$> after →
      fetched world clash (image_url im) = Some b →
      entries_named (filename im) archive = [b].
Proof.
  assert (Forall2 (λ im b, fetched world clash (image_url im) = Some b)
                  (images clash) [poster; still]) as Hc.
  { repeat constructor. }
  split; [exact Hc|].
  apply (archive_last_write_wins world clash [poster; still] Hc).
Defined.

(** The batch of one undecodable, one unreachable and one good input:
    the first two are reported, the third yields its image, and the
    staged copy of the undecodable input is still in the engine's file
    system when the batch is over. *)
Example mixed_batch :
  let st' := (handleProcess world (page [bad; unreachable; good])).2 in
  images st' = [{| image_url := "blob:0"; filename := "clip.webp" |}] ∧
  alerts (trace st') = [alert_message bad; alert_message unreachable] ∧
  map_to_list (FS st') = [("id0.mp4", junk)].
Proof. by vm_compute. Qed.

(** Two failed items leave two files behind. *)
Example leaks_accumulate :
  size (FS (handleProcess world (page [bad; bad])).2) = 2.
Proof. by vm_compute. Qed.

(** [Demo.clash] and [Demo.pair] are the pages the two batches leave. *)
Example clash_is_a_batch_result :
  (handleProcess world (page [good; namesake])).2 = clash ∧
  filename <$> images clash = ["clip.webp"; "clip.webp"] ∧
  filename <$> images pair = ["a.webp"; "b.webp"].
Proof. by vm_compute. Qed.

(** The archive of the page with two images named [clip.webp]. *)
Example clash_archive :
  (packageArchive world clash).1 = Returned [("clip.webp", still)].
Proof. by vm_compute. Qed.

End Witnesses.

(** * Further properties of the code *)

(** ** File names *)

Section FileNames.
Import JSString ExtRegex.

Lemma replace_is_prefix s : ∃ rest, s = replace_with_empty s +:+ rest.
Proof.
  destruct (replace_cases s) as [E|(stem & ext & -> & _ & _ & ->)].
  - exists EmptyString. rewrite E. clear E.
    induction s as [|a s IH]; [done|]. by rewrite append_cons, <- IH.
  - by exists (String "." ext).
Qed.

Lemma replace_slash_free s :
  occurs "/" s = false → occurs "/" (replace_with_empty s) = false.
Proof.
  intros H. destruct (replace_is_prefix s) as [rest E].
  rewrite E, occurs_app in H. by apply orb_false_elim in H as [? _].
Qed.

(** X1: a derived file name never contains ['/'], whatever the URL: the
    archive entries it names are flat. *)
Theorem imageFileName_slash_free (u : string) :
  occurs "/" (imageFileName u) = false.
Proof.
  unfold imageFileName. rewrite occurs_app.
  by rewrite replace_slash_free by apply videoFileName_slash_free.
Qed.

(** X2: deriving a file name from a derived file name changes nothing:
    the [.webp] that the derivation appends is the extension it strips. *)
Theorem imageFileName_idempotent (u : string) :
  imageFileName (imageFileName u) = imageFileName u.
Proof.
  unfold imageFileName at 2.
  set (stem := replace_with_empty (videoFileName u)).
  assert (occurs "/" stem = false) as Hstem
    by apply replace_slash_free, videoFileName_slash_free.
  unfold imageFileName. rewrite videoFileName_no_slash.
  - by rewrite (replace_strips stem "webp").
  - by rewrite occurs_app, Hstem.
Qed.

(** X3: the derived name depends on nothing but the stem of the last
    path segment. A URL that ends in [/stem.ext], where [stem] has no
    ['/'] and [ext] is a non-empty run without ['.'] and ['/'], maps to
    [stem.webp]: inputs that differ only in what precedes the last
    ['/'], or only in the extension, get the same file name. *)
Theorem imageFileName_of_stem (pre stem ext : string) :
  occurs "/" stem = false →
  ext ≠ EmptyString →
  occurs "." ext = false → occurs "/" ext = false →
  imageFileName (pre +:+ String "/" (stem +:+ String "." ext)) =
    stem +:+ ".webp".
Proof.
  intros Hstem Hne Hdot Hslash. unfold imageFileName.
  rewrite videoFileName_after_slash.
  - rewrite replace_strips; [done..|]. by apply class_to_end_iff.
  - rewrite occurs_app. cbn [occurs]. rewrite Hstem, Hslash. done.
Qed.

End FileNames.

(** ** Editing the inputs *)

Section EditingFacts.
Context (Number : string → Z).

Lemma take_one_drop {A} (i : nat) (l : list A) :
  take 1 (drop i l) = option_list (l !! i).
Proof.
  revert i. induction l as [|x l IH]; intros [|i]; try done. apply IH.
Qed.

(** X4: [removeVideoInput] keeps what it should drop. The new list is
    the value returned by [splice], that is the row at [index] alone
    (no row at all for an index past the end); the list without that
    row is the spliced copy, which is discarded. *)
Theorem removeVideoInput_keeps_removed_row (index : nat)
    (videos : list IVideoInput) :
  removeVideoInput index videos = option_list (videos !! index) ∧
  (JSArray.splice index 1 videos).2 = delete index videos.
Proof.
  unfold removeVideoInput, JSArray.splice. cbn [fst snd]. split.
  - apply take_one_drop.
  - rewrite delete_take_drop. do 2 f_equal. lia.
Qed.

Lemma handleVideoChange_lookup index f value videos j :
  handleVideoChange Number index f value videos !! j =
  (if decide (j = index) then with_field Number f value else id)
    <$> videos !! j.
Proof.
  unfold handleVideoChange. rewrite list_lookup_imap.
  destruct (videos !! j); [|done]. cbn. by case_decide.
Qed.

(** X5: [handleVideoChange] rewrites one field of one row. The list
    keeps its length; every other row is as before; editing a URL
    changes no frame number and editing a frame number changes no URL;
    the edited row gets the new URL, or the number read from the text;
    an index past the end changes nothing. *)
Theorem handleVideoChange_one_field (index : nat) (f : field) (value : string)
    (videos : list IVideoInput) :
  let videos' := handleVideoChange Number index f value videos in
  length videos' = length videos ∧
  (∀ j, j ≠ index → videos' !! j = videos !! j) ∧
  (f = url_field → frame <$> videos' = frame <$> videos) ∧
  (f = frame_field → url <$> videos' = url <$> videos) ∧
  (∀ v, videos !! index = Some v →
        videos' !! index = Some (with_field Number f value v) ∧
        (f = url_field → url <$> videos' !! index = Some value) ∧
        (f = frame_field → frame <$> videos' !! index = Some (Number value))) ∧
  (length videos ≤ index → videos' = videos).
Proof.
  cbv zeta. split; [apply length_imap|]. split; [|split; [|split; [|split]]].
  - intros j Hj. rewrite handleVideoChange_lookup, decide_False by done.
    by destruct (videos !! j).
  - intros ->. apply list_eq. intros j.
    rewrite !list_lookup_fmap, handleVideoChange_lookup.
    destruct (videos !! j); [|done]. cbn. by case_decide.
  - intros ->. apply list_eq. intros j.
    rewrite !list_lookup_fmap, handleVideoChange_lookup.
    destruct (videos !! j); [|done]. cbn. by case_decide.
  - intros v Hv. rewrite handleVideoChange_lookup, decide_True, Hv by done.
    split; [done|]. split; by intros ->.
  - intros Hle. apply list_eq. intros j.
    rewrite handleVideoChange_lookup. case_decide as Hj; [|by destruct (_ !! _)].
    subst j. by rewrite lookup_ge_None_2.
Qed.

(** X6: edits compose row by row and field by field. Two edits of
    different rows, or of different fields of one row, give the same
    list in either order; of two edits of the same field of the same
    row, the later one stands. *)
Theorem handleVideoChange_compose (i j : nat) (f g : field)
    (a b : string) (videos : list IVideoInput) :
  (i ≠ j ∨ f ≠ g →
   handleVideoChange Number i f a (handleVideoChange Number j g b videos) =
   handleVideoChange Number j g b (handleVideoChange Number i f a videos)) ∧
  handleVideoChange Number i f a (handleVideoChange Number i f b videos) =
  handleVideoChange Number i f a videos.
Proof.
  split.
  - intros H. apply list_eq. intros k.
    rewrite !handleVideoChange_lookup. destruct (videos !! k) as [v|]; [|done].
    cbn. repeat case_decide; subst; try done.
    destruct H as [|H]; [done|]. by destruct f, g.
  - apply list_eq. intros k.
    rewrite !handleVideoChange_lookup. destruct (videos !! k) as [v|]; [|done].
    cbn. case_decide; [|done]. by destruct f.
Qed.

End EditingFacts.

(** ** The build configuration *)

Section BuildConfig.
Import NextConfig.

(** X7: the webpack hook switches [asyncWebAssembly] on and keeps every
    other experiment; for a browser build it sets the [fs] and [path]
    fallbacks to [false] and keeps every other fallback; for a server
    build it leaves the fallbacks as they are, undefined included. *)
Theorem webpack_settings (c : config) (isServer : bool) :
  ∃ ex, experiments (webpack c isServer) = Some ex ∧
    ex !! "asyncWebAssembly" = Some (Flag true) ∧
    (∀ k, k ≠ "asyncWebAssembly" → ex !! k = spread (experiments c) !! k) ∧
    if isServer
    then resolve_fallback (webpack c isServer) = resolve_fallback c
    else ∃ fb, resolve_fallback (webpack c isServer) = Some fb ∧
           fb !! "fs" = Some (Flag false) ∧
           fb !! "path" = Some (Flag false) ∧
           ∀ k, k ≠ "fs" → k ≠ "path" →
                fb !! k = spread (resolve_fallback c) !! k.
Proof.
  eexists. split; [by destruct isServer|].
  split; [apply lookup_insert_eq|].
  split; [by intros k Hk; rewrite lookup_insert_ne|].
  destruct isServer; [done|]. eexists. split; [done|].
  split; [by rewrite lookup_insert_ne, lookup_insert_eq|].
  split; [apply lookup_insert_eq|].
  intros k Hfs Hpath. by rewrite !lookup_insert_ne.
Qed.

(** X8: the webpack hook is idempotent: running it on its own result,
    for the same kind of build, changes nothing. *)
Theorem webpack_idempotent (c : config) (isServer : bool) :
  webpack (webpack c isServer) isServer = webpack c isServer.
Proof.
  destruct isServer; unfold webpack, spread;
    cbn [negb experiments resolve_fallback default from_option id].
  - by rewrite insert_insert_eq.
  - rewrite insert_insert_eq. do 2 f_equal.
    rewrite (insert_insert_ne _ "fs" "path") by done.
    by rewrite insert_insert_eq, insert_insert_eq.
Qed.

End BuildConfig.

(** ** The loop body, case by case *)

Section Cases.
Context (w : World).

Lemma processVideo_cases st v :
  (fetched w st (url v) = None ∧
   processVideo w v st =
     (Returned tt, set_trace (trace st ++ unreachable_events v) st)) ∨
  (∃ data e,
     fetched w st (url v) = Some data ∧
     (decode w data (select_filter (frame v)) = Rejected ∨
      (decode w data (select_filter (frame v)) = NoOutput ∧
       FS st !! outputFileName w st = None)) ∧
     processVideo w v st = (Returned tt, after_not_extracted w st v data e)) ∨
  (∃ data img,
     fetched w st (url v) = Some data ∧
     (decode w data (select_filter (frame v)) = Produced img ∨
      (decode w data (select_filter (frame v)) = NoOutput ∧
       FS st !! outputFileName w st = Some img)) ∧
     processVideo w v st = (Returned tt, after_extracted w st v data img)).
Proof.
  destruct (fetched w st (url v)) as [data|] eqn:Hf.
  2:{ left. split; [done|]. by apply processVideo_unreachable. }
  right. destruct (decode w data (select_filter (frame v))) as [img| |] eqn:Hd.
  - right. exists data, img. split; [done|]. split; [by left|].
    by apply processVideo_extracted.
  - destruct (FS st !! outputFileName w st) as [old|] eqn:Hout.
    + right. exists data, old. split; [done|]. split; [by right|].
      rewrite (processVideo_stale w st v data old) by done.
      unfold after_extracted. do 2 f_equal.
      pose proof (scratch_names_differ w st) as Hne.
      apply map_eq. intros k.
      destruct (decide (k = outputFileName w st)) as [->|Hk].
      * by rewrite !lookup_delete_eq.
      * rewrite !(lookup_delete_ne _ (outputFileName w st)) by done.
        destruct (decide (k = inputFileName w st)) as [->|Hk'].
        -- by rewrite !lookup_delete_eq.
        -- by rewrite !lookup_delete_ne, !lookup_insert_ne by done.
    + left. exists data, (ENOENT (outputFileName w st)).
      split; [done|]. split; [by right|]. by apply processVideo_no_output.
  - left. exists data, RunRejected. split; [done|]. split; [by left|].
    by apply processVideo_rejected.
Qed.

Lemma for_of_invariant (P : State → Prop) :
  (∀ st v, P st → P (processVideo w v st).2) →
  ∀ vs st, P st → P (for_of vs (processVideo w) st).2.
Proof.
  intros Hstep vs. induction vs as [|v vs IH]; intros st HP; [done|].
  cbn [for_of]. rewrite run_bind.
  destruct (processVideo_step w st v) as (r & evs & st1 & E & _).
  specialize (Hstep st v HP). rewrite E in Hstep |- *. by apply IH.
Qed.

Lemma handleProcess_cases st :
  handleProcess w st = (Returned tt, st) ∨
  (engine_ready w st ∧
   handleProcess w st =
   (Returned tt,
    let st1 := (for_of (videos st) (processVideo w) (engine_started st)).2 in
    set_isProcessing false (set_images (newImages st1) st1))) ∨
  (ffmpeg_created st = true ∧ loaded st = false ∧
   handleProcess w st =
   (Thrown LoadFailed,
    set_trace (trace st ++ [EvLoad false])
      (set_load_calls (S (load_calls st))
         (set_newImages [] (set_isProcessing true st))))).
Proof.
  destruct (ffmpeg_created st) eqn:Hc.
  2:{ left. by apply handleProcess_absent. }
  right. destruct (loaded st) eqn:Hl.
  - left. assert (engine_ready w st) as Hr by (split; auto).
    split; [done|]. by apply handleProcess_ready.
  - destruct (load_ok w (load_calls st)) eqn:Hok.
    + left. assert (engine_ready w st) as Hr by (split; auto).
      split; [done|]. by apply handleProcess_ready.
    + right. split; [done|]. split; [done|]. by apply handleProcess_load_fails.
Qed.

Lemma engine_started_same st :
  let st0 := engine_started st in
  FS st0 = FS st ∧ uuid_calls st0 = uuid_calls st ∧
  blobs st0 = blobs st ∧ blob_calls st0 = blob_calls st ∧
  images st0 = images st ∧ videos st0 = videos st ∧
  ffmpeg_created st0 = ffmpeg_created st ∧ newImages st0 = [].
Proof. unfold engine_started. by destruct (loaded st). Qed.

Lemma zip_images_only_logs imgs (acc : JSZip) st :
  ∃ tr, (zip_images w imgs acc st).2 = set_trace (trace st ++ tr) st ∧
        load_events tr = [] ∧ alerts tr = [].
Proof.
  revert acc st. induction imgs as [|im imgs IH]; intros acc st.
  - exists []. cbn. rewrite app_nil_r. by destruct st.
  - cbn [zip_images]. rewrite run_bind, run_fetch.
    destruct (fetched w st (image_url im)) as [b|].
    + destruct (IH (zip_file (filename im) b acc)
                   (set_trace (trace st ++ [EvFetch (image_url im)]) st))
        as (tr & -> & Hl & Ha).
      exists (EvFetch (image_url im) :: tr). st_simpl.
      split; [|by rewrite <- Hl, <- Ha].
      destruct st. st_norm. by rewrite <- app_assoc.
    + exists [EvFetch (image_url im)]. by cbn [snd].
Qed.

Lemma handleDownloadAll_only_logs st :
  ∃ tr, (handleDownloadAll w st).2 = set_trace (trace st ++ tr) st ∧
        load_events tr = [] ∧ alerts tr = [].
Proof.
  unfold handleDownloadAll, packageArchive, gets, log, modify. js_step.
  destruct (zip_images_only_logs (images st) [] st) as (tr & E & Hl & Ha).
  destruct (zip_images w (images st) [] st) as [[archive|e] st1];
    cbn [snd] in *; subst st1; st_simpl.
  - exists (tr ++ [EvDownload "images.zip" archive]).
    rewrite load_events_app, alerts_app, Hl, Ha.
    split; [|done]. destruct st. st_norm. by rewrite <- app_assoc.
  - by exists tr.
Qed.

End Cases.

(** ** Items and batches *)

Section Items.
Context (w : World).

(** X9: with no file under the item's output name, an item contributes
    an image exactly when its video is fetched and the engine produces
    a frame: the image is then appended to the results under a new
    object URL that resolves to that frame, and no alert is raised;
    otherwise there is no new image and no new object URL, and the one
    alert for this input is raised. *)
Theorem item_outcome (st : State) (v : IVideoInput) :
  FS st !! outputFileName w st = None →
  let st' := (processVideo w v st).2 in
  (∀ img, yields w st v img →
     newImages st' =
       newImages st ++ [{| image_url := object_url w (blob_calls st);
                           filename := imageFileName (url v) |}] ∧
     blobs st' !! object_url w (blob_calls st) = Some img ∧
     alerts (trace st') = alerts (trace st)) ∧
  ((∀ img, ¬ yields w st v img) →
     newImages st' = newImages st ∧ blobs st' = blobs st ∧
     alerts (trace st') = alerts (trace st) ++ [alert_message v]).
Proof.
  intros Hout. cbv zeta.
  destruct (processVideo_cases w st v)
    as [[Hf ->]|[(data & e & Hf & Hd & ->)|(data & img' & Hf & Hd & ->)]];
    cbn [snd]; unfold after_not_extracted, after_extracted, unreachable_events;
    st_simpl; rewrite alerts_app.
  - split; [|by intros _]. intros img (data & Hf' & _). congruence.
  - split; [|by intros _]. intros img (data' & Hf' & Hd').
    destruct Hd as [Hd|[Hd _]]; congruence.
  - destruct Hd as [Hd|[_ Hd]]; [|congruence].
    split.
    + intros img (data' & Hf' & Hd').
      assert (img' = img) as -> by congruence.
      by rewrite lookup_insert_eq, app_nil_r.
    + intros Hnone. destruct (Hnone img'). by exists data.
Qed.

(** X10: a completed item removes both of its scratch files from the
    engine's file system; when the two names were not in use before,
    the file system is exactly as the item found it. *)
Theorem completed_item_cleans_up (st : State) (v : IVideoInput) (img : bytes) :
  yields w st v img →
  let st' := (processVideo w v st).2 in
  FS st' = delete (outputFileName w st) (delete (inputFileName w st) (FS st)) ∧
  (FS st !! inputFileName w st = None →
   FS st !! outputFileName w st = None → FS st' = FS st).
Proof.
  intros (data & Hf & Hd). cbv zeta.
  rewrite (processVideo_extracted w st v data img) by done.
  cbn [snd]. unfold after_extracted. st_simpl.
  pose proof (scratch_names_differ w st) as Hne.
  assert (delete (outputFileName w st)
            (delete (inputFileName w st)
               (<[outputFileName w st:=img]>
                  (<[inputFileName w st:=data]> (FS st)))) =
          delete (outputFileName w st) (delete (inputFileName w st) (FS st)))
    as ->.
  { apply map_eq. intros k.
    destruct (decide (k = outputFileName w st)) as [->|Hk].
    - by rewrite !lookup_delete_eq.
    - rewrite !(lookup_delete_ne _ (outputFileName w st)) by done.
      destruct (decide (k = inputFileName w st)) as [->|Hk'].
      + by rewrite !lookup_delete_eq.
      + by rewrite !lookup_delete_ne, !lookup_insert_ne by done. }
  split; [done|]. intros Hin Hout.
  by rewrite (delete_id (FS st)), delete_id.
Qed.

Lemma staged_only_step st v :
  staged_only w st → staged_only w (processVideo w v st).2.
Proof.
  intros Hst.
  destruct (processVideo_cases w st v)
    as [[Hf ->]|[(data & e & Hf & Hd & ->)|(data & img' & Hf & Hd & ->)]];
    cbn [snd]; unfold staged_only, after_not_extracted, after_extracted;
    st_simpl.
  - done.
  - intros name Hname.
    destruct (decide (name = inputFileName w st)) as [->|Hne].
    + exists (uuid_calls st). split; [lia|done].
    + rewrite lookup_insert_ne in Hname by done.
      destruct (Hst name Hname) as (k & ? & ?). exists k. split; [lia|done].
  - intros name Hname.
    destruct (decide (name = outputFileName w st)) as [->|Hne].
    { rewrite lookup_delete_eq in Hname. by destruct Hname. }
    rewrite lookup_delete_ne in Hname by done.
    destruct (decide (name = inputFileName w st)) as [->|Hne'].
    { rewrite lookup_delete_eq in Hname. by destruct Hname. }
    rewrite lookup_delete_ne, !lookup_insert_ne in Hname by done.
    destruct (Hst name Hname) as (k & ? & ?). exists k. split; [lia|done].
Qed.

Lemma staged_only_output_free st :
  staged_only w st → FS st !! outputFileName w st = None.
Proof.
  intros Hst. destruct (FS st !! outputFileName w st) eqn:E; [|done].
  destruct (Hst (outputFileName w st)) as (k & _ & Hk); [by rewrite E|].
  symmetry in Hk. by apply mp4_not_webp in Hk.
Qed.

Lemma lifetime_invariant (P : State → Prop) :
  P initial_state → (∀ st a, P st → P (perform w st a)) →
  ∀ acts, P (lifetime w acts initial_state).
Proof.
  intros H0 Hstep acts. induction acts as [|a acts IH] using rev_ind; [done|].
  rewrite lifetime_snoc. by apply Hstep.
Qed.

Lemma staged_only_perform st a :
  staged_only w st → staged_only w (perform w st a).
Proof.
  intros Hst. destruct a as [update| |]; cbn [perform].
  - done.
  - destruct (isProcessing st); [done|].
    destruct (handleProcess_cases w st) as [->|[[_ ->]|(_ & _ & ->)]];
      cbn [snd]; [done| |done].
    destruct (engine_started_same st) as (HFS & Hu & _).
    assert (staged_only w (engine_started st)) as H0.
    { unfold staged_only. by rewrite HFS, Hu. }
    apply (for_of_invariant w _ staged_only_step (videos st)) in H0.
    exact H0.
  - destruct (images st); [done|].
    destruct (handleDownloadAll_only_logs w st) as (tr & -> & _). done.
Qed.

Lemma lifetime_staged_only acts :
  staged_only w (lifetime w acts initial_state).
Proof.
  apply lifetime_invariant; [|apply staged_only_perform].
  intros name Hname. cbn [initial_state FS] in Hname.
  rewrite lookup_empty in Hname. by destruct Hname.
Qed.

(** X11: over any sequence of user actions from the first render, the
    engine's file system holds nothing but the staged inputs of failed
    items, each named [<uuid>.mp4] after an identifier drawn earlier;
    in particular no [.webp] output is ever left, and the output name
    of the next item is free. *)
Theorem only_staged_inputs_remain (acts : list action) :
  staged_only w (lifetime w acts initial_state) ∧
  FS (lifetime w acts initial_state)
    !! outputFileName w (lifetime w acts initial_state) = None.
Proof.
  pose proof (lifetime_staged_only acts) as H.
  split; [exact H|]. by apply staged_only_output_free.
Qed.

Lemma loop_all_unreachable vs st :
  Forall (λ v, fetched w st (url v) = None) vs →
  for_of vs (processVideo w) st =
  (Returned tt,
   set_trace (trace st ++ concat (unreachable_events <$> vs)) st).
Proof.
  revert st. induction vs as [|v vs IH]; intros st H.
  - cbn. rewrite app_nil_r. by destruct st.
  - apply Forall_cons in H as [Hv Hvs]. cbn [for_of].
    rewrite run_bind, processVideo_unreachable by done. cbv beta iota.
    rewrite IH by exact Hvs. st_simpl. cbn [fmap list_fmap concat].
    destruct st. st_norm. by rewrite <- app_assoc.
Qed.

(** X12: a batch in which no input can be fetched, the empty batch
    included, returns normally with an empty result list, which takes
    the place of the results shown before; it raises one alert per
    input, in order, draws no scratch name, writes no file and creates
    no object URL. *)
Theorem unreachable_batch_clears_results (st : State) :
  engine_ready w st →
  Forall (λ v, fetched w st (url v) = None) (videos st) →
  ∃ st',
    handleProcess w st = (Returned tt, st') ∧
    images st' = [] ∧
    alerts (trace st') = alerts (trace st) ++ (alert_message <$> videos st) ∧
    FS st' = FS st ∧ uuid_calls st' = uuid_calls st ∧
    blobs st' = blobs st ∧ isProcessing st' = false.
Proof.
  intros Hready Hall. eexists. split; [by apply handleProcess_ready|].
  destruct (engine_started_same st) as (HFS & Hu & Hb & _ & _ & _ & _ & Hn).
  destruct (engine_started_facts st) as (_ & _ & _ & Ha & _).
  rewrite loop_all_unreachable.
  2:{ eapply Forall_impl; [exact Hall|]. intros v Hv. unfold fetched in *.
      by rewrite Hb. }
  cbn [snd]. st_simpl. rewrite alerts_app, Ha.
  repeat split; try done. f_equal. clear.
  induction (videos st) as [|v vs IH]; [done|].
  cbn [fmap list_fmap concat]. rewrite alerts_app, IH. done.
Qed.

End Items.

(** ** Downloads *)

Section Downloads.
Context (w : World).


Lemma zip_images_aborts before im after contents (acc : JSZip) st :
  Forall2 (λ im b, fetched w st (image_url im) = Some b) before contents →
  fetched w st (image_url im) = None →
  zip_images w (before ++ im :: after) acc st =
  (Thrown (FetchFailed (image_url im)),
   set_trace (trace st ++ (EvFetch <$> (image_url <$> before ++ [im]))) st).
Proof.
  revert contents acc st.
  induction before as [|x before IH]; intros contents acc st H Him.
  - cbn [app zip_images]. rewrite run_bind, run_fetch, Him. done.
  - apply Forall2_cons_inv_l in H as (b & contents' & Hb & Hrest & ->).
    cbn [app zip_images]. rewrite run_bind, run_fetch, Hb. cbv beta iota.
    rewrite (IH contents') by done.
    st_simpl. cbn [fmap list_fmap app]. destruct st. st_norm.
    by rewrite <- app_assoc.
Qed.

(** X14: when an image's object URL does not resolve,
    [handleDownloadAll] throws the fetch error of the first such
    image: the images before it have been fetched, those after it are
    not, and no download is handed out. *)
Theorem download_aborts_at_first_failure (st : State)
    (before : list IImageData) (im : IImageData) (after : list IImageData)
    (contents : list bytes) :
  images st = before ++ im :: after →
  Forall2 (λ im b, fetched w st (image_url im) = Some b) before contents →
  fetched w st (image_url im) = None →
  handleDownloadAll w st =
  (Thrown (FetchFailed (image_url im)),
   set_trace (trace st ++ (EvFetch <$> (image_url <$> before ++ [im]))) st).
Proof.
  intros E H Him. unfold handleDownloadAll, packageArchive, gets.
  rewrite !run_bind. cbv beta iota. rewrite E.
  by rewrite (zip_images_aborts before im after contents).
Qed.

Lemma resolvable_contents st imgs :
  resolvable st imgs →
  ∃ contents,
    Forall2 (λ im b, fetched w st (image_url im) = Some b) imgs contents.
Proof.
  induction 1 as [|im imgs [b Hb] _ [contents IH]]; [by exists []|].
  exists (b :: contents). constructor; [|done]. unfold fetched. by rewrite Hb.
Qed.

Lemma resolvable_step st v :
  resolvable st (newImages st) ∧ resolvable st (images st) →
  let st' := (processVideo w v st).2 in
  resolvable st' (newImages st') ∧ resolvable st' (images st').
Proof.
  intros [Hn Hi]. cbv zeta.
  destruct (processVideo_cases w st v)
    as [[Hf ->]|[(data & e & Hf & Hd & ->)|(data & img' & Hf & Hd & ->)]];
    cbn [snd]; unfold resolvable, after_not_extracted, after_extracted;
    st_simpl; [done..|].
  assert (∀ imgs, resolvable st imgs →
    Forall (λ im, is_Some (<[object_url w (blob_calls st):=img']> (blobs st)
                             !! image_url im)) imgs) as Hkeep.
  { intros imgs Himgs. eapply Forall_impl; [exact Himgs|]. intros im Him.
    cbn beta in *. rewrite lookup_insert. case_decide; [by eexists|done]. }
  split; [|by apply Hkeep]. apply Forall_app. split; [by apply Hkeep|].
  apply Forall_singleton. cbn. rewrite lookup_insert_eq. by eexists.
Qed.

Lemma resolvable_perform st a :
  resolvable st (images st) →
  resolvable (perform w st a) (images (perform w st a)).
Proof.
  intros Hi. destruct a as [update| |]; cbn [perform].
  - done.
  - destruct (isProcessing st); [done|].
    destruct (handleProcess_cases w st) as [->|[[_ ->]|(_ & _ & ->)]];
      cbn [snd]; [done| |done].
    destruct (engine_started_same st) as (_ & _ & Hb & _ & Him & _ & _ & Hn).
    assert (resolvable (engine_started st) (newImages (engine_started st)) ∧
            resolvable (engine_started st) (images (engine_started st))) as H0.
    { unfold resolvable. rewrite Hn, Him, Hb. split; [constructor|done]. }
    apply (for_of_invariant w
             (λ s, resolvable s (newImages s) ∧ resolvable s (images s))
             resolvable_step (videos st)) in H0.
    exact (proj1 H0).
  - destruct (images st) eqn:E; [by rewrite E|].
    destruct (handleDownloadAll_only_logs w st) as (tr & -> & _).
    unfold resolvable in *. st_simpl. by rewrite E.
Qed.

(** X15: over any sequence of user actions from the first render, every
    image the page shows has its object URL in the store, so a
    download never throws: [handleDownloadAll] returns normally in
    every state the page can reach. *)
Theorem download_never_throws (acts : list action) :
  resolvable (lifetime w acts initial_state)
             (images (lifetime w acts initial_state)) ∧
  (handleDownloadAll w (lifetime w acts initial_state)).1 = Returned tt.
Proof.
  assert (resolvable (lifetime w acts initial_state)
                     (images (lifetime w acts initial_state))) as H.
  { apply (lifetime_invariant w (λ s, resolvable s (images s)));
      [constructor|]. intros st a. apply resolvable_perform. }
  split; [done|]. destruct (resolvable_contents _ _ H) as [contents Hc].
  unfold handleDownloadAll. rewrite run_bind.
  by rewrite (packageArchive_run w _ contents).
Qed.

End Downloads.

(** ** Loading the engine *)

Section Loading.
Context (w : World).

Lemma load_discipline_perform st a :
  load_discipline st → load_discipline (perform w st a).
Proof.
  intros Hinv. pose proof Hinv as [Hc Hd].
  destruct a as [update| |]; cbn [perform].
  - done.
  - destruct (isProcessing st) eqn:Hp; [done|].
    destruct Hd as [(_ & Hl & He & Hi)|[(_ & Hl & He)|(? & _)]];
      [| |congruence].
    + destruct (handleProcess_cases w st) as [->|[[Hr E]|(_ & _ & E)]].
      * done.
      * pose proof (handleProcess_loads w st) as Hloads.
        rewrite Hl in Hloads. rewrite E in Hloads |- *. cbn [snd] in *.
        destruct (for_of_processVideo w (engine_started st) (videos st))
          as (items & st1 & E1 & _ & He1).
        rewrite E1 in Hloads |- *. cbn [snd] in *.
        destruct He1 as (_ & _ & _ & _ & _ & Hc1 & Hl1 & _).
        destruct (engine_started_facts st) as (_ & _ & _ & _ & _ & Hl0 & _).
        destruct (engine_started_same st) as (_ & _ & _ & _ & _ & _ & Hc0 & _).
        revert Hloads. unfold load_discipline. st_simpl.
        rewrite Hl1, Hl0, Hc1, Hc0, He. intros [[? _]|Hloads]; [done|].
        split; [done|]. right. left. by rewrite Hloads.
      * rewrite E. cbn [snd]. unfold load_discipline. st_simpl.
        split; [done|]. right. right.
        by rewrite load_events_app, He.
    + destruct (handleProcess_cases w st) as [->|[[Hr E]|(_ & ? & _)]];
        [| |congruence].
      * done.
      * pose proof (handleProcess_loads w st) as Hloads.
        rewrite Hl in Hloads. rewrite E in Hloads |- *. cbn [snd] in *.
        destruct (for_of_processVideo w (engine_started st) (videos st))
          as (items & st1 & E1 & _ & He1).
        rewrite E1 in Hloads |- *. cbn [snd] in *.
        destruct He1 as (_ & _ & _ & _ & _ & Hc1 & _).
        destruct (engine_started_same st) as (_ & _ & _ & _ & _ & _ & Hc0 & _).
        revert Hloads. unfold load_discipline. st_simpl.
        rewrite Hc1, Hc0, He. intros [-> ->].
        split; [done|]. right. by left.
  - destruct (images st) eqn:Ei; [done|].
    destruct (handleDownloadAll_only_logs w st) as (tr & -> & Hl & _).
    unfold load_discipline. st_simpl.
    rewrite load_events_app, Hl, app_nil_r, Ei. by split.
Qed.

Lemma lifetime_load_discipline acts :
  load_discipline (lifetime w acts initial_state).
Proof.
  apply lifetime_invariant; [|intros st a; apply load_discipline_perform].
  split; [done|]. by left.
Qed.


(** X17: once the load call has failed the page is frozen. After any
    further sequence of user actions the state differs from the state
    at the failure in the input rows alone: the Process button stays
    disabled, no batch runs, no download is offered, and the engine is
    never loaded. *)
Theorem failed_load_freezes_page (acts more : list action) :
  let st := lifetime w acts initial_state in
  isProcessing st = true →
  lifetime w more st = set_videos (videos (lifetime w more st)) st.
Proof.
  cbv zeta. intros Hp.
  destruct (lifetime_load_discipline acts)
    as [_ [(? & _)|[(? & _)|(_ & _ & _ & Hi)]]]; [congruence..|].
  set (st := lifetime w acts initial_state) in *.
  induction more as [|a more IH] using rev_ind.
  - cbn. by destruct st.
  - rewrite lifetime_snoc. rewrite IH at 1 2.
    destruct a as [update| |]; cbn [perform]; st_simpl.
    + by destruct st.
    + rewrite Hp. st_simpl. by destruct st.
    + rewrite Hi. st_simpl. by destruct st.
Qed.

End Loading.

(** ** From the batch to the archive *)

Section EndToEnd.
Context (w : World).

Lemma store_minted_step st v :
  store_minted w st → store_minted w (processVideo w v st).2.
Proof.
  intros Hst.
  destruct (processVideo_cases w st v)
    as [[Hf ->]|[(data & e & Hf & Hd & ->)|(data & img' & Hf & Hd & ->)]];
    cbn [snd]; unfold store_minted, after_not_extracted, after_extracted;
    st_simpl; [done..|].
  intros u Hu. destruct (decide (u = object_url w (blob_calls st))) as [->|Hne].
  - exists (blob_calls st). split; [lia|done].
  - rewrite lookup_insert_ne in Hu by done.
    destruct (Hst u Hu) as (k & ? & ?). exists k. split; [lia|done].
Qed.

Lemma store_minted_perform st a :
  store_minted w st → store_minted w (perform w st a).
Proof.
  intros Hst. destruct a as [update| |]; cbn [perform].
  - done.
  - destruct (isProcessing st); [done|].
    destruct (handleProcess_cases w st) as [->|[[_ ->]|(_ & _ & ->)]];
      cbn [snd]; [done| |done].
    destruct (engine_started_same st) as (_ & _ & Hb & Hc & _).
    assert (store_minted w (engine_started st)) as H0.
    { unfold store_minted. by rewrite Hb, Hc. }
    apply (for_of_invariant w _ store_minted_step (videos st)) in H0.
    exact H0.
  - destruct (images st); [done|].
    destruct (handleDownloadAll_only_logs w st) as (tr & -> & _). done.
Qed.

Lemma loop_all_yield vs frames st :
  Inj (=) (=) (object_url w) →
  store_minted w st →
  Forall2 (λ v img, not_reminted w st (url v) ∧ yields w st v img) vs frames →
  ∃ added st',
    for_of vs (processVideo w) st = (Returned tt, st') ∧
    newImages st' = newImages st ++ added ∧
    filename <$> added = (λ v, imageFileName (url v)) <$> vs ∧
    Forall2 (λ im img, blobs st' !! image_url im = Some img) added frames ∧
    blobs st ⊆ blobs st'.
Proof.
  intros Hinj Hst H. revert st Hst H.
  induction vs as [|v vs IH] in frames |- *; intros st Hst H.
  - apply Forall2_nil_inv_l in H as ->. exists [], st.
    by rewrite app_nil_r.
  - apply Forall2_cons_inv_l in H
      as (img & frames' & [Hfresh (data & Hf & Hd)] & Hrest & ->).
    pose proof (processVideo_extracted w st v data img Hf Hd) as E.
    set (st1 := after_extracted w st v data img) in *.
    assert (blobs st1 = <[object_url w (blob_calls st):=img]> (blobs st)) as Hb1
      by done.
    assert (blob_calls st1 = S (blob_calls st)) as Hc1 by done.
    assert (blobs st !! object_url w (blob_calls st) = None) as Hnew.
    { destruct (blobs st !! object_url w (blob_calls st)) eqn:Ek; [|done].
      destruct (Hst (object_url w (blob_calls st))) as (k & Hk & Hu);
        [by rewrite Ek|].
      apply Hinj in Hu. lia. }
    destruct (IH frames' st1) as (added & st' & E' & Hn & Hnames & Hres & Hsub).
    { pose proof (store_minted_step st v Hst) as H1. by rewrite E in H1. }
    { eapply Forall2_impl; [exact Hrest|].
      intros v' img' [Hfresh' (data' & Hf' & Hd')]. split.
      - intros n Hn. apply Hfresh'. lia.
      - exists data'. split; [|done]. unfold fetched in *.
        rewrite Hb1, lookup_insert_ne; [done|]. by apply Hfresh'. }
    exists ({| image_url := object_url w (blob_calls st);
               filename := imageFileName (url v) |} :: added), st'.
    split; [cbn [for_of]; by rewrite run_bind, E|].
    split; [rewrite Hn; unfold st1, after_extracted; st_simpl;
            by rewrite <- app_assoc|].
    split; [cbn; by rewrite Hnames|].
    split.
    + constructor; [|done]. cbn. eapply lookup_weaken; [|exact Hsub].
      rewrite Hb1. apply lookup_insert_eq.
    + etrans; [|exact Hsub]. rewrite Hb1. by apply insert_subseteq.
Qed.

Lemma batch_then_archive_from st frames :
  Inj (=) (=) (object_url w) →
  store_minted w st →
  engine_ready w st →
  Forall2 (λ v img, not_reminted w st (url v) ∧ yields w st v img)
          (videos st) frames →
  ∃ st',
    handleProcess w st = (Returned tt, st') ∧
    (packageArchive w st').1 =
      Returned (pack (zip ((λ v, imageFileName (url v)) <$> videos st) frames)).
Proof.
  intros Hinj Hst Hready Hall. eexists. split; [by apply handleProcess_ready|].
  destruct (engine_started_same st) as (_ & _ & Hb & Hc & _ & _ & _ & Hn).
  destruct (loop_all_yield (videos st) frames (engine_started st))
    as (added & st1 & E & Hnew & Hnames & Hres & _).
  { done. }
  { unfold store_minted. by rewrite Hb, Hc. }
  { eapply Forall2_impl; [exact Hall|].
    intros v img [Hfresh (data & Hf & Hd)]. split.
    - unfold not_reminted in *. by rewrite Hc.
    - exists data. split; [|done]. unfold fetched in *. by rewrite Hb. }
  rewrite E. cbn [snd]. rewrite Hnew, Hn. cbn [app].
  rewrite (packageArchive_run w _ frames).
  - st_simpl. by rewrite Hnames.
  - st_simpl. eapply Forall2_impl; [exact Hres|].
    intros im img Him. unfold fetched. st_simpl. by rewrite Him.
Qed.

Lemma lifetime_store_minted acts :
  store_minted w (lifetime w acts initial_state).
Proof.
  apply lifetime_invariant; [|apply store_minted_perform].
  intros u Hu. cbn [initial_state blobs] in Hu.
  rewrite lookup_empty in Hu. by destruct Hu.
Qed.

(** X18: from the batch to the archive. When the browser never hands
    out an object URL twice, in any state the page reaches from its
    first render, a batch in which every input is fetched and decoded
    leaves a page whose archive lists the decoded frames, in input
    order, under the names derived from the inputs' URLs, a later frame
    taking the place of an earlier one of the same name. *)
Theorem batch_then_archive (acts : list action) (frames : list bytes) :
  Inj (=) (=) (object_url w) →
  engine_ready w (lifetime w acts initial_state) →
  Forall2 (λ v img, not_reminted w (lifetime w acts initial_state) (url v) ∧
                    yields w (lifetime w acts initial_state) v img)
          (videos (lifetime w acts initial_state)) frames →
  ∃ st',
    handleProcess w (lifetime w acts initial_state) = (Returned tt, st') ∧
    (packageArchive w st').1 =
      Returned (pack (zip ((λ v, imageFileName (url v))
                             <$> videos (lifetime w acts initial_state))
                          frames)).
Proof.
  intros Hinj. apply batch_then_archive_from; [done|].
  apply lifetime_store_minted.
Qed.

End EndToEnd.

(** ** What a batch depends on *)

Section Dependence.
Context (w : World).

Lemma processVideo_set_images x st v :
  processVideo w v (set_images x st) =
  ((processVideo w v st).1, set_images x (processVideo w v st).2).
Proof.
  destruct (fetched w st (url v)) as [data|] eqn:Hf.
  2:{ rewrite !processVideo_unreachable by done. by destruct st. }
  destruct (decode w data (select_filter (frame v))) as [img| |] eqn:Hd.
  - rewrite !(processVideo_extracted w _ v data img) by done. by destruct st.
  - destruct (FS st !! outputFileName w st) as [old|] eqn:Hout.
    + rewrite !(processVideo_stale w _ v data old) by done. by destruct st.
    + rewrite !(processVideo_no_output w _ v data) by done. by destruct st.
  - rewrite !(processVideo_rejected w _ v data) by done. by destruct st.
Qed.

Lemma for_of_set_images x vs st :
  for_of vs (processVideo w) (set_images x st) =
  ((for_of vs (processVideo w) st).1,
   set_images x (for_of vs (processVideo w) st).2).
Proof.
  revert st. induction vs as [|v vs IH]; intros st; [done|].
  cbn [for_of]. rewrite !run_bind, processVideo_set_images.
  destruct (processVideo_step w st v) as (r & evs & st1 & -> & _).
  cbn [fst snd]. apply IH.
Qed.

(** X19: what a batch returns does not depend on the results the page
    held before it: with the engine available, [handleProcess] ends in
    the same state whatever list [images] held at the start. *)
Theorem batch_ignores_previous_results (st : State) (x : list IImageData) :
  engine_ready w st →
  handleProcess w (set_images x st) = handleProcess w st.
Proof.
  intros Hr. rewrite !handleProcess_ready by done. f_equal. cbv zeta.
  assert (engine_started (set_images x st) = set_images x (engine_started st))
    as -> by (unfold engine_started; st_simpl; by destruct (loaded st)).
  st_simpl. rewrite for_of_set_images. cbn [snd].
  by destruct (for_of _ _ _).2.
Qed.

Lemma yields_decide st v :
  (∃ img, yields w st v img) ∨ (∀ img, ¬ yields w st v img).
Proof.
  unfold yields. destruct (fetched w st (url v)) as [data|].
  - destruct (decode w data (select_filter (frame v))) as [img| |] eqn:Hd.
    + left. exists img, data. by rewrite Hd.
    + right. intros img (data' & [= <-] & ?). congruence.
    + right. intros img (data' & [= <-] & ?). congruence.
  - right. by intros img (data' & ? & _).
Qed.

Lemma no_frame_no_image st v :
  FS st !! outputFileName w st = None →
  (∀ img, ¬ yields w st v img) →
  newImages (processVideo w v st).2 = newImages st.
Proof.
  intros Hout Hno.
  destruct (processVideo_cases w st v)
    as [[Hf ->]|[(data & e & Hf & Hd & ->)|(data & img & Hf & Hd & ->)]];
    [done..|].
  destruct Hd as [Hd|[_ Hd]]; [|congruence].
  destruct (Hno img). by exists data.
Qed.

Lemma loop_exact vs st :
  staged_only w st →
  ∃ items st',
    for_of vs (processVideo w) st = (Returned tt, st') ∧
    Forall2 (λ v it, item_trace v it.1 it.2 ∧
                     (not_reminted w st (url v) →
                      (is_Some it.1 ↔ ∃ img, yields w st v img))) vs items ∧
    effect w st st' (omap fst items) (concat items.*2).
Proof.
  revert st. induction vs as [|v vs IH]; intros st Hst.
  - exists [], st. split; [done|]. split; [constructor|apply effect_refl].
  - destruct (processVideo_step w st v) as (r & evs & st1 & E1 & Hit & He & Hr).
    pose proof (staged_only_step w st v Hst) as Hst1. rewrite E1 in Hst1.
    pose proof (no_frame_no_image st v (staged_only_output_free w st Hst))
      as Hnone.
    rewrite E1 in Hnone. cbn [snd] in *.
    destruct (IH st1 Hst1) as (items & st' & E & Hall & He').
    exists ((r, evs) :: items), st'. split; [|split].
    + cbn [for_of]. by rewrite run_bind, E1.
    + constructor.
      * split; [done|]. intros _. cbn [fst]. split.
        -- intros Hsome. destruct (yields_decide st v) as [?|Hno]; [done|].
           pose proof (Hnone Hno) as Hn.
           destruct He as (_ & Hn' & _). rewrite Hn in Hn'.
           destruct r; [|by destruct Hsome].
           apply (f_equal length) in Hn'. rewrite length_app in Hn'.
           cbn in Hn'. lia.
        -- intros (img & data & Hf & Hd). apply Hr. by exists data, img.
      * eapply Forall2_impl; [exact Hall|]. intros v' it [? Hv]. split; [done|].
        intros Hfresh.
        destruct He as (_ & _ & _ & _ & _ & _ & _ & _ & Hc & Hb).
        rewrite Hv by (intros n Hn; apply Hfresh; lia).
        unfold yields, fetched. by rewrite (Hb _ Hfresh).
    + replace (omap fst ((r, evs) :: items))
        with (option_list r ++ omap fst items) by by destruct r.
      cbn [fmap list_fmap concat snd]. by eapply effect_trans.
Qed.

(** X20: in any state the page reaches from its first render, with the
    engine available, a batch succeeds on exactly the inputs that are
    fetched and decoded. Every input has its record, and for an input
    whose URL is not handed out as an object URL during the batch the
    record holds an image if and only if the input's video is fetched
    and the engine produces a frame for it; the results are the images
    of the records, in input order. *)
Theorem batch_succeeds_exactly_on_decodable (acts : list action) :
  engine_ready w (lifetime w acts initial_state) →
  ∃ (items : list (option IImageData * list event)) st',
    handleProcess w (lifetime w acts initial_state) = (Returned tt, st') ∧
    Forall2 (λ v it,
               item_trace v it.1 it.2 ∧
               (not_reminted w (lifetime w acts initial_state) (url v) →
                (is_Some it.1 ↔
                 ∃ img, yields w (lifetime w acts initial_state) v img)))
            (videos (lifetime w acts initial_state)) items ∧
    images st' = omap fst items.
Proof.
  set (st := lifetime w acts initial_state). intros Hready.
  pose proof (lifetime_staged_only w acts) as Hst. fold st in Hst.
  destruct (engine_started_same st)
    as (HFS & Hu & Hb & Hc & _ & _ & _ & Hn).
  destruct (loop_exact (videos st) (engine_started st))
    as (items & st1 & E & Hall & He).
  { unfold staged_only. by rewrite HFS, Hu. }
  exists items. eexists. split; [by apply handleProcess_ready|].
  rewrite E. cbn [snd]. st_simpl. split.
  - eapply Forall2_impl; [exact Hall|]. intros v it [? Hv]. split; [done|].
    intros Hfresh. rewrite Hv by (unfold not_reminted in *; by rewrite Hc).
    unfold yields, fetched. by rewrite Hb.
  - destruct He as (_ & Hnew & _). by rewrite Hnew, Hn.
Qed.

End Dependence.

(** ** The further properties at work on the concrete page *)

Section MoreWitnesses.
Import Demo.

Lemma imageFileName_of_stem_witness :
  JSString.occurs "/" "clip" = false ∧ "mp4" ≠ EmptyString ∧
  JSString.occurs "." "mp4" = false ∧ JSString.occurs "/" "mp4" = false ∧
  imageFileName ("https://x.com/a" +:+ String "/" ("clip" +:+ String "." "mp4"))
    = "clip" +:+ ".webp".
Proof.
  assert ("mp4" ≠ EmptyString) as Hne by discriminate.
  split; [reflexivity|]. split; [exact Hne|].
  split; [reflexivity|]. split; [reflexivity|].
  apply (imageFileName_of_stem "https://x.com/a" "clip" "mp4");
    [reflexivity|exact Hne|reflexivity|reflexivity].
Defined.

Lemma good_yields st : blobs st = ∅ → yields world st good poster.
Proof.
  intros Hb. exists clip. unfold fetched. rewrite Hb, lookup_empty.
  split; reflexivity.
Qed.

Lemma item_outcome_witness :
  FS (page [good]) !! outputFileName world (page [good]) = None ∧
  let st' := (processVideo world good (page [good])).2 in
  (∀ img, yields world (page [good]) good img →
     newImages st' =
       newImages (page [good]) ++
       [{| image_url := object_url world (blob_calls (page [good]));
           filename := imageFileName (url good) |}] ∧
     blobs st' !! object_url world (blob_calls (page [good])) = Some img ∧
     alerts (trace st') = alerts (trace (page [good]))) ∧
  ((∀ img, ¬ yields world (page [good]) good img) →
     newImages st' = newImages (page [good]) ∧
     blobs st' = blobs (page [good]) ∧
     alerts (trace st') =
       alerts (trace (page [good])) ++ [alert_message good]).
Proof.
  split; [reflexivity|].
  apply (item_outcome world (page [good]) good). reflexivity.
Defined.

Lemma completed_item_cleans_up_witness :
  yields world (page [good]) good poster ∧
  let st' := (processVideo world good (page [good])).2 in
  FS st' = delete (outputFileName world (page [good]))
             (delete (inputFileName world (page [good])) (FS (page [good]))) ∧
  (FS (page [good]) !! inputFileName world (page [good]) = None →
   FS (page [good]) !! outputFileName world (page [good]) = None →
   FS st' = FS (page [good])).
Proof.
  assert (yields world (page [good]) good poster) as Hy.
  { apply good_yields. reflexivity. }
  split; [exact Hy|].
  apply (completed_item_cleans_up world (page [good]) good poster Hy).
Defined.

Lemma unreachable_batch_clears_results_witness :
  engine_ready world (set_videos [unreachable] clash) ∧
  Forall (λ v, fetched world (set_videos [unreachable] clash) (url v) = None)
         (videos (set_videos [unreachable] clash)) ∧
  ∃ st',
    handleProcess world (set_videos [unreachable] clash) = (Returned tt, st') ∧
    images st' = [] ∧
    alerts (trace st') =
      alerts (trace (set_videos [unreachable] clash)) ++
      (alert_message <$> videos (set_videos [unreachable] clash)) ∧
    FS st' = FS (set_videos [unreachable] clash) ∧
    uuid_calls st' = uuid_calls (set_videos [unreachable] clash) ∧
    blobs st' = blobs (set_videos [unreachable] clash) ∧
    isProcessing st' = false.
Proof.
  assert (engine_ready world (set_videos [unreachable] clash)) as Hr.
  { split; [reflexivity|left; reflexivity]. }
  assert (Forall (λ v, fetched world (set_videos [unreachable] clash) (url v)
                       = None)
                 (videos (set_videos [unreachable] clash))) as Hu.
  { apply Forall_cons_2; [vm_compute; reflexivity|apply Forall_nil_2]. }
  split; [exact Hr|]. split; [exact Hu|].
  apply (unreachable_batch_clears_results world
           (set_videos [unreachable] clash) Hr Hu).
Defined.


Lemma download_aborts_at_first_failure_witness :
  let lost := {| image_url := "blob:9"; filename := "lost.webp" |} in
  let st := set_images (take 1 (images pair) ++ lost :: drop 1 (images pair))
              pair in
  images st = take 1 (images pair) ++ lost :: drop 1 (images pair) ∧
  Forall2 (λ im b, fetched world st (image_url im) = Some b)
          (take 1 (images pair)) [poster] ∧
  fetched world st (image_url lost) = None ∧
  handleDownloadAll world st =
  (Thrown (FetchFailed (image_url lost)),
   set_trace
     (trace st ++
      (EvFetch <$> (image_url <$> take 1 (images pair) ++ [lost]))) st).
Proof.
  cbv zeta.
  assert (Forall2 (λ im b,
            fetched world
              (set_images
                 (take 1 (images pair) ++
                  {| image_url := "blob:9"; filename := "lost.webp" |}
                  :: drop 1 (images pair)) pair) (image_url im) = Some b)
            (take 1 (images pair)) [poster]) as Hc.
  { repeat constructor. }
  split; [reflexivity|]. split; [exact Hc|]. split; [reflexivity|].
  apply (download_aborts_at_first_failure world _ (take 1 (images pair))
           {| image_url := "blob:9"; filename := "lost.webp" |}
           (drop 1 (images pair)) [poster]);
    [reflexivity|exact Hc|reflexivity].
Defined.

Lemma failed_load_freezes_page_witness :
  let st := lifetime offline [Process] initial_state in
  let more := [SetVideos addVideo; Process; DownloadAll] in
  isProcessing st = true ∧
  lifetime offline more st = set_videos (videos (lifetime offline more st)) st.
Proof.
  cbv zeta. split; [reflexivity|].
  apply (failed_load_freezes_page offline [Process]
           [SetVideos addVideo; Process; DownloadAll]).
  reflexivity.
Defined.

Lemma batch_ignores_previous_results_witness :
  engine_ready world (page [good; bad]) ∧
  handleProcess world (set_images (images clash) (page [good; bad])) =
  handleProcess world (page [good; bad]).
Proof.
  assert (engine_ready world (page [good; bad])) as Hr.
  { split; [reflexivity|right; reflexivity]. }
  split; [exact Hr|].
  apply (batch_ignores_previous_results world (page [good; bad])
           (images clash) Hr).
Defined.

Lemma batch_succeeds_exactly_on_decodable_witness :
  let acts := [SetVideos (λ _, [bad; good]); Process;
               SetVideos (λ _, [good; unreachable; bad])] in
  engine_ready world (lifetime world acts initial_state) ∧
  ∃ (items : list (option IImageData * list event)) st',
    handleProcess world (lifetime world acts initial_state) =
      (Returned tt, st') ∧
    Forall2 (λ v it,
               item_trace v it.1 it.2 ∧
               (not_reminted world (lifetime world acts initial_state) (url v) →
                (is_Some it.1 ↔
                 ∃ img, yields world (lifetime world acts initial_state) v img)))
            (videos (lifetime world acts initial_state)) items ∧
    images st' = omap fst items.
Proof.
  cbv zeta.
  assert (engine_ready world
            (lifetime world
               [SetVideos (λ _, [bad; good]); Process;
                SetVideos (λ _, [good; unreachable; bad])] initial_state))
    as Hr.
  { split; [reflexivity|left; reflexivity]. }
  split; [exact Hr|].
  apply (batch_succeeds_exactly_on_decodable world
           [SetVideos (λ _, [bad; good]); Process;
            SetVideos (λ _, [good; unreachable; bad])] Hr).
Defined.

Lemma demo_object_url_inj : Inj (=) (=) (object_url world).
Proof.
  intros n m H. cbn [object_url world] in H.
  apply (inj (String.app "blob:")) in H. by apply (inj pretty) in H.
Qed.

Lemma batch_then_archive_witness :
  let acts := [SetVideos (λ _, [good; namesake])] in
  Inj (=) (=) (object_url world) ∧
  engine_ready world (lifetime world acts initial_state) ∧
  Forall2 (λ v img,
             not_reminted world (lifetime world acts initial_state) (url v) ∧
             yields world (lifetime world acts initial_state) v img)
          (videos (lifetime world acts initial_state)) [poster; still] ∧
  ∃ st',
    handleProcess world (lifetime world acts initial_state) =
      (Returned tt, st') ∧
    (packageArchive world st').1 =
      Returned (pack (zip ((λ v, imageFileName (url v))
                             <$> videos (lifetime world acts initial_state))
                          [poster; still])).
Proof.
  cbv zeta.
  assert (engine_ready world
            (lifetime world [SetVideos (λ _, [good; namesake])] initial_state))
    as Hr.
  { split; [reflexivity|right; reflexivity]. }
  assert (Forall2 (λ v img,
            not_reminted world
              (lifetime world [SetVideos (λ _, [good; namesake])] initial_state)
              (url v) ∧
            yields world
              (lifetime world [SetVideos (λ _, [good; namesake])] initial_state)
              v img)
            (videos
               (lifetime world [SetVideos (λ _, [good; namesake])]
                  initial_state))
            [poster; still]) as Hv.
  { constructor; [split; [by apply not_minted|apply good_yields; reflexivity]|].
    constructor; [split; [by apply not_minted|]|constructor].
    exists reel. split; reflexivity. }
  split; [exact demo_object_url_inj|]. split; [exact Hr|]. split; [exact Hv|].
  apply (batch_then_archive world [SetVideos (λ _, [good; namesake])]
           [poster; still] demo_object_url_inj Hr Hv).
Defined.

End MoreWitnesses.
